(** * JillBag: host/player session layer over peer-to-peer data connections

    A shallow embedding of [jillBag.js] (the helper [randomString] and the
    classes [JillBagHost] and [JillBagPlayer]) and the properties of its
    connection registry, its single connection slot and its address naming
    scheme.

    The JavaScript code is event driven: every piece of work is a listener
    run by the transport client (PeerJS) or a method called by the game.
    The embedding keeps that shape.
    - A session is a record of its fields.  The connection objects it holds
      references to live in a store indexed by handle, so that the registry,
      the slot and the transport client talk about the same object.
    - A listener registered with [on] is stored in the connection object as
      the variables its closure captured; a notification runs the listeners
      found there, in the order they were registered.
    - The overridable methods [handle*] are a record of computations; the
      bodies the classes give them write to the console.
    - Statements that can throw are written in a state-and-exception monad;
      [try_catch] is [try { ... } catch {}].
    - The registry [_others] is a [Map]: an association list in insertion
      order with the operations of [Map.prototype].

    Layout: the embedding ([JS], [Transport], [Naming], [JillBagHost],
    [JillBagPlayer]), the vocabulary of the properties, concrete worlds, and
    then the facts, host first. *)

From Stdlib Require Import String Ascii List ZArith QArith Qround Lia Bool.
From stdpp Require Import base decidable option list strings gmap.


(* ===================================================================== *)
(** ** Completions: JavaScript statements either return or throw         *)
(* ===================================================================== *)

Module JS.

Inductive Exn : Type :=
| TypeError (msg : string)
| Raised (msg : string).

Inductive Completion (A : Type) : Type :=
| Normal (a : A)
| Throw (e : Exn).
Arguments Normal {A} a.
Arguments Throw {A} e.

(** A computation over a state [S].  The state reached is kept also when
    the computation throws, as in JavaScript. *)
Definition M (S A : Type) : Type := S -> Completion A * S.

Definition ret {S A} (a : A) : M S A := fun s => (Normal a, s).

Definition bind {S A B} (m : M S A) (k : A -> M S B) : M S B :=
  fun s =>
    match m s with
    | (Normal a, s') => k a s'
    | (Throw e, s') => (Throw e, s')
    end.

Definition throw {S A} (e : Exn) : M S A := fun s => (Throw e, s).

(** [try { m } catch {}] *)
Definition try_catch {S} (m : M S unit) : M S unit :=
  fun s => (Normal tt, snd (m s)).

Definition gets {S A} (f : S -> A) : M S A := fun s => (Normal (f s), s).
Definition modify {S} (f : S -> S) : M S unit := fun s => (Normal tt, f s).

(** Run [f] on every element, left to right; a throw ends the loop. *)
Fixpoint for_each {S A} (f : A -> M S unit) (l : list A) : M S unit :=
  match l with
  | [] => ret tt
  | x :: l' => bind (f x) (fun _ => for_each f l')
  end.

Definition result {S A} (m : M S A) (s : S) : Completion A := fst (m s).
Definition exec {S A} (m : M S A) (s : S) : S := snd (m s).

Definition returns {S A} (m : M S A) (s : S) : Prop :=
  exists a, result m s = Normal a.

(** *** [Map]: an insertion-ordered association list.

    [Map.prototype.set] overwrites the value of a key that is present and
    leaves its position, and appends a pair for a new key; [delete] removes
    what is stored under the key; iteration follows the list. *)

Section Map.
Context {K V : Type} `{EqDecision K}.

Definition Map : Type := list (K * V).

Fixpoint map_get (k : K) (m : Map) : option V :=
  match m with
  | [] => None
  | (k', v) :: m' => if decide (k' = k) then Some v else map_get k m'
  end.

Definition map_has (k : K) (m : Map) : bool :=
  match map_get k m with Some _ => true | None => false end.

Fixpoint map_set (k : K) (v : V) (m : Map) : Map :=
  match m with
  | [] => [(k, v)]
  | (k', v') :: m' =>
      if decide (k' = k) then (k', v) :: m' else (k', v') :: map_set k v m'
  end.

Fixpoint map_delete (k : K) (m : Map) : Map :=
  match m with
  | [] => []
  | (k', v') :: m' =>
      if decide (k' = k) then map_delete k m' else (k', v') :: map_delete k m'
  end.

Definition map_clear (m : Map) : Map := [].

Definition map_keys (m : Map) : list K := map fst m.

(** Number of pairs stored under [k]. *)
Fixpoint map_count (k : K) (m : Map) : nat :=
  match m with
  | [] => 0
  | (k', _) :: m' => (if decide (k' = k) then 1 else 0) + map_count k m'
  end.

End Map.
Arguments Map : clear implicits.

End JS.

Global Instance M_ret {S} : MRet (JS.M S) := fun A a => JS.ret a.
Global Instance M_bind {S} : MBind (JS.M S) := fun A B k m => JS.bind m k.

(* ===================================================================== *)
(** ** The transport client as the sessions see it                       *)
(* ===================================================================== *)

(** PeerJS is an external collaborator.  What the sessions use of it is a
    [Peer] (signaling client) and [DataConnection] objects with the
    operations [on], [send], [close] and the readable properties [open]
    and [metadata].  A connection object records what was asked of it, and
    carries how it answers: whether its [send] raises on a payload, and
    what its [close] does, since the classes themselves expect [close] to
    be able to raise and the transport may raise the close notification
    inside [close] or later.  A handle outside the store stands for no
    object; the operations do nothing on it. *)

Module Transport.
Import JS.

Abbreviation handle := nat.

(** Values handed to [send]; the sessions never inspect them. *)
Inductive Payload : Type :=
| PUndefined
| PNull
| PString (s : string)
| PBigInt (n : Z)
| PObject (fields : list (string * string)).

Definition Err : Type := string.

(** What [conn.close()] does before it returns. *)
Inductive CloseMode : Type :=
| CloseDeferred   (* returns; the close notification comes later, if at all *)
| CloseEmits      (* an open connection is marked closed and its close
                     listeners run before [close] returns *)
| CloseThrows.    (* raises *)

Record Behaviour : Type := mkBehaviour {
  close_mode : CloseMode;
  send_raises : Payload -> bool
}.

(** A connection object.  [K] is the type of the variables captured by the
    listeners a session registers for data, close and error. *)
Record Conn (K : Type) : Type := mkConn {
  conn_open : bool;
  conn_metadata : option (gmap string string);
  conn_on_open : list unit;
  conn_on_data : list K;
  conn_on_close : list K;
  conn_on_error : list K;
  conn_sent : list Payload;
  conn_close_calls : nat;
  conn_behaviour : Behaviour
}.
Arguments mkConn {K}.
Arguments conn_open {K}.
Arguments conn_metadata {K}.
Arguments conn_on_open {K}.
Arguments conn_on_data {K}.
Arguments conn_on_close {K}.
Arguments conn_on_error {K}.
Arguments conn_sent {K}.
Arguments conn_close_calls {K}.
Arguments conn_behaviour {K}.

Record ConnectOptions : Type := mkOptions {
  opt_metadata : gmap string string;
  opt_serialization : string
}.

(** The signaling client: the address it was constructed with, and the
    calls made on it.  [peer_dialed c] is the behaviour of the connection
    object that [connect] returns as handle [c]. *)
Record Peer : Type := mkPeer {
  peer_id : string;
  peer_reconnect_calls : nat;
  peer_connect_calls : list (string * ConnectOptions);
  peer_dialed : handle -> Behaviour
}.

Inductive ConsoleEntry : Type :=
| ConsoleLog (text : string)
| ConsoleLogData (text : string) (data : Payload)
| ConsoleWarn (text : string)
| ConsoleError (text : string).

(** One JavaScript process: the session object [this], the connection
    objects, the signaling client and the console. *)
Record World (K Sess : Type) : Type := mkWorld {
  this : Sess;
  conns : list (Conn K);
  peer : Peer;
  console : list ConsoleEntry
}.
Arguments mkWorld {K Sess}.
Arguments this {K Sess}.
Arguments conns {K Sess}.
Arguments peer {K Sess}.
Arguments console {K Sess}.

Section Operations.
Context {K Sess : Type}.
Abbreviation W := (World K Sess).

Definition set_this (f : Sess -> Sess) (w : W) : W :=
  mkWorld (f (this w)) (conns w) (peer w) (console w).
Definition set_conns (f : list (Conn K) -> list (Conn K)) (w : W) : W :=
  mkWorld (this w) (f (conns w)) (peer w) (console w).
Definition set_peer (f : Peer -> Peer) (w : W) : W :=
  mkWorld (this w) (conns w) (f (peer w)) (console w).
Definition set_console (f : list ConsoleEntry -> list ConsoleEntry) (w : W) : W :=
  mkWorld (this w) (conns w) (peer w) (f (console w)).

Definition console_log (text : string) : M W unit :=
  modify (set_console (fun l => l ++ [ConsoleLog text])).
Definition console_log_data (text : string) (d : Payload) : M W unit :=
  modify (set_console (fun l => l ++ [ConsoleLogData text d])).
Definition console_warn (text : string) : M W unit :=
  modify (set_console (fun l => l ++ [ConsoleWarn text])).
Definition console_error (text : string) : M W unit :=
  modify (set_console (fun l => l ++ [ConsoleError text])).

Definition update_conn (c : handle) (f : Conn K -> Conn K) : M W unit :=
  modify (set_conns (alter f c)).

Definition with_open (b : bool) (cn : Conn K) : Conn K :=
  mkConn b (conn_metadata cn) (conn_on_open cn) (conn_on_data cn)
    (conn_on_close cn) (conn_on_error cn) (conn_sent cn)
    (conn_close_calls cn) (conn_behaviour cn).
Definition add_on_open (cn : Conn K) : Conn K :=
  mkConn (conn_open cn) (conn_metadata cn) (conn_on_open cn ++ [tt])
    (conn_on_data cn) (conn_on_close cn) (conn_on_error cn) (conn_sent cn)
    (conn_close_calls cn) (conn_behaviour cn).
Definition add_on_data (k : K) (cn : Conn K) : Conn K :=
  mkConn (conn_open cn) (conn_metadata cn) (conn_on_open cn)
    (conn_on_data cn ++ [k]) (conn_on_close cn) (conn_on_error cn)
    (conn_sent cn) (conn_close_calls cn) (conn_behaviour cn).
Definition add_on_close (k : K) (cn : Conn K) : Conn K :=
  mkConn (conn_open cn) (conn_metadata cn) (conn_on_open cn)
    (conn_on_data cn) (conn_on_close cn ++ [k]) (conn_on_error cn)
    (conn_sent cn) (conn_close_calls cn) (conn_behaviour cn).
Definition add_on_error (k : K) (cn : Conn K) : Conn K :=
  mkConn (conn_open cn) (conn_metadata cn) (conn_on_open cn)
    (conn_on_data cn) (conn_on_close cn) (conn_on_error cn ++ [k])
    (conn_sent cn) (conn_close_calls cn) (conn_behaviour cn).
Definition add_sent (d : Payload) (cn : Conn K) : Conn K :=
  mkConn (conn_open cn) (conn_metadata cn) (conn_on_open cn)
    (conn_on_data cn) (conn_on_close cn) (conn_on_error cn)
    (conn_sent cn ++ [d]) (conn_close_calls cn) (conn_behaviour cn).
Definition add_close_call (cn : Conn K) : Conn K :=
  mkConn (conn_open cn) (conn_metadata cn) (conn_on_open cn)
    (conn_on_data cn) (conn_on_close cn) (conn_on_error cn)
    (conn_sent cn) (S (conn_close_calls cn)) (conn_behaviour cn).

Definition fresh_conn (md : option (gmap string string)) (b : Behaviour) : Conn K :=
  mkConn false md [] [] [] [] [] 0 b.

(** [conn.open] *)
Definition conn_is_open (c : handle) (w : W) : bool :=
  match conns w !! c with
  | Some cn => conn_open cn
  | None => false
  end.

(** [conn.on('open', ...)], [conn.on('data', ...)], ... *)
Definition conn_on_open_add (c : handle) : M W unit := update_conn c add_on_open.
Definition conn_on_data_add (c : handle) (k : K) : M W unit := update_conn c (add_on_data k).
Definition conn_on_close_add (c : handle) (k : K) : M W unit := update_conn c (add_on_close k).
Definition conn_on_error_add (c : handle) (k : K) : M W unit := update_conn c (add_on_error k).

(** [conn.send(data)] *)
Definition conn_send (c : handle) (d : Payload) : M W unit :=
  cn ← gets (fun w => conns w !! c);
  match cn with
  | Some cn =>
      if send_raises (conn_behaviour cn) d
      then throw (Raised "send")
      else update_conn c (add_sent d)
  | None => mret tt
  end.

(** [conn.close()].  [listener] is what a close listener of the session
    does with its captured variables. *)
Definition conn_close (listener : K -> M W unit) (c : handle) : M W unit :=
  cn ← gets (fun w => conns w !! c);
  match cn with
  | Some cn =>
      update_conn c add_close_call;;
      match close_mode (conn_behaviour cn) with
      | CloseDeferred => mret tt
      | CloseThrows => throw (Raised "close")
      | CloseEmits =>
          if conn_open cn
          then update_conn c (with_open false);; for_each listener (conn_on_close cn)
          else mret tt
      end
  | None => mret tt
  end.

(** The listeners registered on [c] for an event, as the emitter sees them
    when the event is raised. *)
Definition listeners {L} (sel : Conn K -> list L) (c : handle) : M W (list L) :=
  gets (fun w => match conns w !! c with Some cn => sel cn | None => [] end).

(** [peer.reconnect()] *)
Definition peer_reconnect : M W unit :=
  modify (set_peer (fun p =>
    mkPeer (peer_id p) (S (peer_reconnect_calls p)) (peer_connect_calls p) (peer_dialed p))).

(** [peer.connect(address, options)]: a new connection object, not yet open. *)
Definition peer_connect (address : string) (opts : ConnectOptions) : M W handle :=
  fun w =>
    let c := length (conns w) in
    let p := peer w in
    (Normal c,
     mkWorld (this w)
       (conns w ++ [fresh_conn (Some (opt_metadata opts)) (peer_dialed p c)])
       (mkPeer (peer_id p) (peer_reconnect_calls p)
          (peer_connect_calls p ++ [(address, opts)]) (peer_dialed p))
       (console w)).

(** An inbound connection object created by the client. *)
Definition inbound (md : option (gmap string string)) (b : Behaviour) : M W handle :=
  fun w => (Normal (length (conns w)), set_conns (fun l => l ++ [fresh_conn md b]) w).

End Operations.
End Transport.

(* ===================================================================== *)
(** ** [randomString] and the address naming scheme                      *)
(* ===================================================================== *)

Module Naming.

(** [alphabet[i]] for an integer [i]: [None] is [undefined]. *)
Definition char_at (alphabet : string) (i : Z) : option ascii :=
  if (i <? 0)%Z then None else String.get (Z.to_nat i) alphabet.

(** [result += alphabet[i]]: [undefined] is appended as its name. *)
Definition append_char (result : string) (ch : option ascii) : string :=
  match ch with
  | Some a => result +:+ String a EmptyString
  | None => result +:+ "undefined"
  end.

Definition default_alphabet : string := "ABCDEFGHIJKLMNOPQRSTUVWXYZ".

(** [Math.floor(Math.random() * alphabet.length)], for the value [r]
    returned by [Math.random()]. *)
Definition random_index (r : Q) (alphabet : string) : Z :=
  Qfloor (r * inject_Z (Z.of_nat (String.length alphabet))).

(** [randomString(len, alphabet)]; [random i] is the value of the call of
    [Math.random()] in iteration [i]. *)
Definition randomString_with (random : nat -> Q) (len : nat) (alphabet : string) : string :=
  fold_left
    (fun result i => append_char result (char_at alphabet (random_index (random i) alphabet)))
    (seq 0 len) "".

Definition randomString (random : nat -> Q) (len : nat) : string :=
  randomString_with random len default_alphabet.

Definition _hostPeerId (hostId : string) : string := "JillBagHost" +:+ hostId.
Definition _playerPeerId (playerId : string) : string := "JillBagPlayer" +:+ playerId.



End Naming.

(* ===================================================================== *)
(** ** [class JillBagHost]                                               *)
(* ===================================================================== *)

Module JillBagHost.
Import JS Transport Naming.

(** The value of [conn.metadata.id]: [None] is [undefined], which a [Map]
    accepts as a key like any other value. *)
Abbreviation Ident := (option string).

(** [`${otherId}`] *)
Definition show (otherId : Ident) : string :=
  match otherId with
  | Some s => s
  | None => "undefined"
  end.

(** The fields [hostId] and [_others]; [_peer] is the world's [peer]. *)
Record Fields : Type := mkFields {
  hostId : string;
  _others : Map Ident handle
}.

Abbreviation State := (World Ident Fields).

Definition others (w : State) : Map Ident handle := _others (this w).

Definition with_others (f : Map Ident handle -> Map Ident handle) : M State unit :=
  modify (set_this (fun t => mkFields (hostId t) (f (_others t)))).

(** The overridable methods [handle*]. *)
Record Hooks : Type := mkHooks {
  handlePeerReady : string -> M State unit;
  handlePeerError : Err -> M State unit;
  handleOpen : Ident -> M State unit;
  handleData : Ident -> Payload -> M State unit;
  handleClose : Ident -> M State unit;
  handleError : Ident -> Err -> M State unit
}.

(** The bodies the class itself gives them. *)
Definition base_hooks : Hooks := {|
  handlePeerReady myId := console_log ("Peer open with id " +:+ myId +:+ ".");
  handlePeerError err := console_error ("Peer error: " +:+ err +:+ ".");
  handleOpen otherId := console_log ("Connection with " +:+ show otherId +:+ " open.");
  handleData otherId data := console_log_data ("Received from " +:+ show otherId +:+ " data") data;
  handleClose otherId := console_log ("Connection with " +:+ show otherId +:+ " closed.");
  handleError otherId err :=
    console_error ("Received from " +:+ show otherId +:+ " error " +:+ err +:+ ".")
|}.

(** [constructor()]: the listeners it registers on [_peer] are the cases of
    [notify] below. *)
Definition constructor (random : nat -> Q) (dialed : handle -> Behaviour) : State :=
  let hostId := randomString random 6 in
  mkWorld (mkFields hostId []) [] (mkPeer (_hostPeerId hostId) 0 [] dialed) [].

Section Methods.
Variable h : Hooks.

(** The listener [conn.on('close', () => { ... })] of a connection opened
    under [otherId]. *)
Definition on_conn_close (otherId : Ident) : M State unit :=
  with_others (map_delete otherId);;
  handleClose h otherId.

(** [send(otherId, data)] *)
Definition send (otherId : Ident) (data : Payload) : M State bool :=
  conn ← gets (fun w => map_get otherId (others w));
  usable ← gets (fun w =>
    match conn with
    | Some c => conn_is_open c w
    | None => false
    end);
  if negb usable then
    console_warn ("No open connection to " +:+ show otherId);;
    mret false
  else
    match conn with
    | Some c => conn_send c data
    | None => mret tt
    end;;
    mret true.

(** [close(otherId)] *)
Definition close (otherId : Ident) : M State unit :=
  conn ← gets (fun w => map_get otherId (others w));
  match conn with
  | Some c => try_catch (conn_close on_conn_close c)
  | None => mret tt
  end;;
  with_others (map_delete otherId).

(** One turn of the loop of [closeAll].  The iterator of a [Map] is live:
    a pair deleted before the iterator reaches it is not visited.  No
    method of the class but the open listener adds a pair, so the pairs
    to visit are those present when the loop starts. *)
Definition closeAll_visit (entry : Ident * handle) : M State unit :=
  present ← gets (fun w => map_get entry.1 (others w));
  match present with
  | Some c => try_catch (conn_close on_conn_close c)
  | None => mret tt
  end.

(** [closeAll()] *)
Definition closeAll : M State unit :=
  entries ← gets others;
  for_each closeAll_visit entries;;
  with_others map_clear.

(** The listener [conn.on('open', () => { ... })] of an inbound [conn]. *)
Definition on_conn_open (conn : handle) : M State unit :=
  md ← gets (fun w =>
    match conns w !! conn with
    | Some cn => conn_metadata cn
    | None => None
    end);
  match md with
  | None => throw (TypeError "Cannot read properties of undefined (reading 'id')")
  | Some md =>
      let otherId : Ident := md !! "id" in
      known ← gets (fun w => map_has otherId (others w));
      (if (known : bool) then close otherId else mret tt);;
      with_others (map_set otherId conn);;
      conn_on_data_add conn otherId;;
      conn_on_close_add conn otherId;;
      conn_on_error_add conn otherId;;
      handleOpen h otherId
  end.

(** What the transport client tells the session. *)
Inductive Notification : Type :=
| PeerOpen (myId : string)
| PeerError (err : Err)
| PeerDisconnected
| PeerConnection (md : option (gmap string string)) (b : Behaviour)
| ConnOpen (conn : handle)
| ConnData (conn : handle) (data : Payload)
| ConnClose (conn : handle)
| ConnError (conn : handle) (err : Err).

(** The listeners run for one notification.  The client marks a connection
    open before it raises [open] and closed before it raises [close]. *)
Definition notify (n : Notification) : M State unit :=
  match n with
  | PeerOpen myId => handlePeerReady h myId
  | PeerError err => handlePeerError h err
  | PeerDisconnected => peer_reconnect
  | PeerConnection md b =>
      conn ← inbound md b;
      conn_on_open_add conn
  | ConnOpen conn =>
      update_conn conn (with_open true);;
      ls ← listeners conn_on_open conn;
      for_each (fun _ => on_conn_open conn) ls
  | ConnData conn data =>
      ls ← listeners conn_on_data conn;
      for_each (fun otherId => handleData h otherId data) ls
  | ConnClose conn =>
      update_conn conn (with_open false);;
      ls ← listeners conn_on_close conn;
      for_each on_conn_close ls
  | ConnError conn err =>
      ls ← listeners conn_on_error conn;
      for_each (fun otherId => handleError h otherId err) ls
  end.

(** One thing that happens to a host: a notification, or a call of a
    public method by the game. *)
Inductive Step : Type :=
| Notify (n : Notification)
| CallSend (otherId : Ident) (data : Payload)
| CallClose (otherId : Ident)
| CallCloseAll.

Definition step (st : Step) : M State unit :=
  match st with
  | Notify n => notify n
  | CallSend otherId data => send otherId data;; mret tt
  | CallClose otherId => close otherId
  | CallCloseAll => closeAll
  end.

(** Steps happen one after the other; what one of them throws is lost to
    the next. *)
Definition run (sts : list Step) (w : State) : State :=
  fold_left (fun w st => exec (step st) w) sts w.

End Methods.

End JillBagHost.

(* ===================================================================== *)
(** ** [class JillBagPlayer]                                             *)
(* ===================================================================== *)

Module JillBagPlayer.
Import JS Transport Naming.

(** The fields [hostId], [_playerId] and [_conn] ([None] is [null]);
    [_peer] is the world's [peer]. *)
Record Fields : Type := mkFields {
  hostId : string;
  _playerId : string;
  _conn : option handle
}.

(** The listeners of a player capture nothing but [this]. *)
Abbreviation State := (World unit Fields).

Definition slot (w : State) : option handle := _conn (this w).

Definition set_conn (c : option handle) : M State unit :=
  modify (set_this (fun t => mkFields (hostId t) (_playerId t) c)).

Record Hooks : Type := mkHooks {
  handlePeerReady : string -> M State unit;
  handlePeerError : Err -> M State unit;
  handleOpen : M State unit;
  handleData : Payload -> M State unit;
  handleClose : M State unit;
  handleError : Err -> M State unit
}.

Definition base_hooks : Hooks := {|
  handlePeerReady myId := console_log ("Peer open with id " +:+ myId +:+ ".");
  handlePeerError err := console_error ("Peer error: " +:+ err +:+ ".");
  handleOpen := console_log "Connection with host open.";
  handleData data := console_log_data "Received from host data" data;
  handleClose := console_log "Connection with host closed.";
  handleError err := console_error ("Received from host error " +:+ err +:+ ".")
|}.

(** [constructor(hostId)] *)
Definition constructor (random : nat -> Q) (dialed : handle -> Behaviour)
    (hostId : string) : State :=
  let playerId := randomString random 10 in
  mkWorld (mkFields hostId playerId None) []
    (mkPeer (_playerPeerId playerId) 0 [] dialed) [].

Section Methods.
Variable h : Hooks.

(** The listener [this._conn.on('close', () => { ... })]. *)
Definition on_conn_close (_ : unit) : M State unit :=
  set_conn None;;
  handleClose h.

(** [this._conn.on(...)]: [_conn] is read when the statement runs. *)
Definition on_current (register : handle -> M State unit) : M State unit :=
  cur ← gets slot;
  match cur with
  | Some c => register c
  | None => throw (TypeError "Cannot read properties of null (reading 'on')")
  end.

(** The listener [this._conn.on('open', () => { ... })]. *)
Definition on_conn_open : M State unit :=
  on_current (fun c => conn_on_data_add c tt);;
  on_current (fun c => conn_on_close_add c tt);;
  on_current (fun c => conn_on_error_add c tt);;
  handleOpen h.

(** [_connectToHost()] *)
Definition _connectToHost : M State unit :=
  target ← gets (fun w => _hostPeerId (hostId (this w)));
  playerId ← gets (fun w => _playerId (this w));
  c ← peer_connect target (mkOptions {[ "id" := playerId ]} "json");
  set_conn (Some c);;
  on_current conn_on_open_add.

(** [!this._conn || !this._conn.open] *)
Definition not_connected (w : State) : bool :=
  match slot w with
  | Some c => negb (conn_is_open c w)
  | None => true
  end.

(** [sendHost(data)] *)
Definition sendHost (data : Payload) : M State bool :=
  idle ← gets not_connected;
  if (idle : bool) then
    console_warn "No open connection to host.";;
    mret false
  else
    cur ← gets slot;
    match cur with
    | Some c => conn_send c data
    | None => mret tt
    end;;
    mret true.

(** [closeHost()] *)
Definition closeHost : M State unit :=
  cur ← gets slot;
  match cur with
  | Some c => try_catch (conn_close on_conn_close c)
  | None => mret tt
  end;;
  set_conn None.

Inductive Notification : Type :=
| PeerOpen (myId : string)
| PeerError (err : Err)
| PeerDisconnected
| PeerConnection (md : option (gmap string string)) (b : Behaviour)
| ConnOpen (conn : handle)
| ConnData (conn : handle) (data : Payload)
| ConnClose (conn : handle)
| ConnError (conn : handle) (err : Err).

(** The listeners run for one notification.  A player registers no
    listener for inbound connections. *)
Definition notify (n : Notification) : M State unit :=
  match n with
  | PeerOpen myId =>
      idle ← gets not_connected;
      (if (idle : bool) then _connectToHost else mret tt);;
      handlePeerReady h myId
  | PeerError err => handlePeerError h err
  | PeerDisconnected => peer_reconnect
  | PeerConnection md b =>
      _ ← inbound md b;
      mret tt
  | ConnOpen conn =>
      update_conn conn (with_open true);;
      ls ← listeners conn_on_open conn;
      for_each (fun _ => on_conn_open) ls
  | ConnData conn data =>
      ls ← listeners conn_on_data conn;
      for_each (fun _ => handleData h data) ls
  | ConnClose conn =>
      update_conn conn (with_open false);;
      ls ← listeners conn_on_close conn;
      for_each on_conn_close ls
  | ConnError conn err =>
      ls ← listeners conn_on_error conn;
      for_each (fun _ => handleError h err) ls
  end.

Inductive Step : Type :=
| Notify (n : Notification)
| CallSendHost (data : Payload)
| CallCloseHost.

Definition step (st : Step) : M State unit :=
  match st with
  | Notify n => notify n
  | CallSendHost data => sendHost data;; mret tt
  | CallCloseHost => closeHost
  end.

Definition run (sts : list Step) (w : State) : State :=
  fold_left (fun w st => exec (step st) w) sts w.

End Methods.

End JillBagPlayer.

(* ===================================================================== *)
(** ** Vocabulary of the properties                                      *)
(* ===================================================================== *)

Module Props.
Import JS Transport.

(** A computation that returns, whatever the state. *)
Definition total {S A} (m : M S A) : Prop := forall s, returns m s.

(** A computation keeps [P]. *)
Definition preserves {S A} (P : S -> Prop) (m : M S A) : Prop :=
  forall s, P s -> P (exec m s).

(** Two worlds with the same session fields, connection objects and
    signaling client: they differ at most in the console. *)
Definition same_model {K Sess} (w w' : World K Sess) : Prop :=
  this w' = this w /\ conns w' = conns w /\ peer w' = peer w.

(** A property that does not depend on the console. *)
Definition model_only {K Sess} (P : World K Sess -> Prop) : Prop :=
  forall w w', same_model w w' -> P w -> P w'.

(** A computation that touches nothing but the console (it may throw). *)
Definition quiet {K Sess A} (m : M (World K Sess) A) : Prop :=
  forall w, same_model w (exec m w).

(** [conn.close()] was called this many times on handle [c]. *)
Definition close_calls {K Sess} (c : handle) (w : World K Sess) : nat :=
  match conns w !! c with
  | Some cn => conn_close_calls cn
  | None => 0
  end.

(** The payloads handed to [conn.send] of handle [c], oldest first. *)
Definition sent {K Sess} (c : handle) (w : World K Sess) : list Payload :=
  match conns w !! c with
  | Some cn => conn_sent cn
  | None => []
  end.

(** [conn.send] of handle [c] raises on payload [d]. *)
Definition send_fails {K Sess} (c : handle) (d : Payload) (w : World K Sess) : bool :=
  match conns w !! c with
  | Some cn => send_raises (conn_behaviour cn) d
  | None => false
  end.

Definition connect_calls {K Sess} (w : World K Sess) : list (string * ConnectOptions) :=
  peer_connect_calls (peer w).


End Props.

Module HostProps.
Import JS Transport Props JillBagHost.

Definition quiet_hooks (h : Hooks) : Prop :=
  (forall myId, quiet (handlePeerReady h myId)) /\
  (forall err, quiet (handlePeerError h err)) /\
  (forall otherId, quiet (handleOpen h otherId)) /\
  (forall otherId data, quiet (handleData h otherId data)) /\
  (forall otherId, quiet (handleClose h otherId)) /\
  (forall otherId err, quiet (handleError h otherId err)).

(** The identity a connection object declares, when it has metadata. *)
Definition declared (cn : Conn Ident) : option Ident :=
  match conn_metadata cn with
  | Some md => Some (md !! "id")
  | None => None
  end.

(** What the open listener establishes and every step keeps: no identity
    is stored twice, a registered handle is a connection object that
    declares the identity it is registered under, and a close listener
    captured the identity its connection declares. *)
Record consistent (w : State) : Prop := mkConsistent {
  keys_nodup : NoDup (map_keys (others w));
  entry_declared : forall k c, (k, c) ∈ others w ->
    exists cn, conns w !! c = Some cn /\ declared cn = Some k;
  listener_declared : forall c cn k, conns w !! c = Some cn ->
    k ∈ conn_on_close cn -> declared cn = Some k
}.

(** Handle [conn] is a connection object with metadata [md]. *)
Definition has_metadata (conn : handle) (md : gmap string string) (w : State) : Prop :=
  exists cn, conns w !! conn = Some cn /\ conn_metadata cn = Some md.

(** A change of a connection object that keeps its metadata and its close
    listeners. *)
Definition benign (f : Conn Ident -> Conn Ident) : Prop :=
  forall cn, conn_metadata (f cn) = conn_metadata cn /\
             conn_on_close (f cn) = conn_on_close cn.

(** A property kept by what the public methods do to the model: benign
    changes of connection objects and removals from the registry. *)
Record robust (P : State -> Prop) : Prop := mkRobust {
  robust_model : model_only P;
  robust_conn : forall c f, benign f -> preserves P (update_conn c f);
  robust_delete : forall k, preserves P (with_others (map_delete k));
  robust_clear : preserves P (with_others map_clear)
}.

(** The state of affairs while the open listener of [conn] runs. *)
Definition opening (conn : handle) (md : gmap string string) (w : State) : Prop :=
  consistent w /\ has_metadata conn md w.

(** A change of a connection object that counts one more close request
    and keeps what was sent. *)
Definition requests_close (g : Conn Ident -> Conn Ident) : Prop :=
  forall cn, conn_close_calls (g cn) = S (conn_close_calls cn) /\
             conn_sent (g cn) = conn_sent cn /\
             conn_behaviour (g cn) = conn_behaviour cn.

(** [!conn || !conn.open] for the connection registered under [otherId]. *)
Definition unusable (otherId : Ident) (w : State) : bool :=
  match map_get otherId (others w) with
  | Some c => negb (conn_is_open c w)
  | None => true
  end.

(** A hook that calls [send] and goes on with the value returned. *)
Definition asks_send (otherId : Ident) (data : Payload)
    (k : bool -> M State unit) : M State unit :=
  r ← send otherId data; k r.

End HostProps.

Module PlayerProps.
Import JS Transport Props Naming JillBagPlayer.

Definition quiet_hooks (h : Hooks) : Prop :=
  (forall myId, quiet (handlePeerReady h myId)) /\
  (forall err, quiet (handlePeerError h err)) /\
  quiet (handleOpen h) /\
  (forall data, quiet (handleData h data)) /\
  quiet (handleClose h) /\
  (forall err, quiet (handleError h err)).

(** The connect attempt of [_connectToHost] in world [w]. *)
Definition attempt (w : State) : string * ConnectOptions :=
  (_hostPeerId (hostId (this w)),
   mkOptions {[ "id" := _playerId (this w) ]} "json").

(** The connect attempts a step is to make in world [w]. *)
Definition dials (st : Step) (w : State) : list (string * ConnectOptions) :=
  match st with
  | Notify (PeerOpen _) => if not_connected w then [attempt w] else []
  | _ => []
  end.

(** The connect attempts made so far are [calls]. *)
Definition so_far (calls : list (string * ConnectOptions)) (w : State) : Prop :=
  connect_calls w = calls.

Definition asks_sendHost (data : Payload) (k : bool -> M State unit) : M State unit :=
  r ← sendHost data; k r.

End PlayerProps.

(* ===================================================================== *)
(** ** Concrete worlds used to exercise the definitions                  *)
(* ===================================================================== *)

Module Scenarios.
Import JS Transport Naming.

(** A source of random numbers in the unit interval. *)
Definition sevenths (i : nat) : Q := (Z.of_nat (i mod 7) # 7)%Q.

(** A connection whose [send] accepts every payload. *)
Definition plain (m : CloseMode) : Behaviour := mkBehaviour m (fun _ => false).


Definition declares (playerId : string) : option (gmap string string) :=
  Some {[ "id" := playerId ]}.

Definition alice : option string := Some "ALICEALICE".

Definition fresh_host : JillBagHost.State :=
  JillBagHost.constructor sevenths (fun _ => plain CloseDeferred).

(** A connection that declares ALICEALICE arrives and opens. *)
Definition arrival (b : Behaviour) (conn : handle) : list JillBagHost.Step :=
  [JillBagHost.Notify (JillBagHost.PeerConnection (declares "ALICEALICE") b);
   JillBagHost.Notify (JillBagHost.ConnOpen conn)].

(** One player connected. *)
Definition seated (b : Behaviour) : JillBagHost.State :=
  JillBagHost.run JillBagHost.base_hooks (arrival b 0) fresh_host.

(** The same player connected a second time. *)
Definition reseated (b : Behaviour) : JillBagHost.State :=
  JillBagHost.run JillBagHost.base_hooks (arrival b 1) (seated b).

(** Two players seated: the first on a connection whose [close] raises,
    the second on one that raises its close notification inside [close]. *)
Definition crowd_steps : list JillBagHost.Step :=
  [JillBagHost.Notify (JillBagHost.PeerConnection (declares "ALICEALICE") (plain CloseThrows));
   JillBagHost.Notify (JillBagHost.ConnOpen 0);
   JillBagHost.Notify (JillBagHost.PeerConnection (declares "BOBBOBBOBB") (plain CloseEmits));
   JillBagHost.Notify (JillBagHost.ConnOpen 1)].

Definition crowd : JillBagHost.State :=
  JillBagHost.run JillBagHost.base_hooks crowd_steps fresh_host.

(** Hooks whose close hook tries to send to the player that left and logs
    what [send] returned. *)
Definition probing_host : JillBagHost.Hooks :=
  JillBagHost.mkHooks
    (JillBagHost.handlePeerReady JillBagHost.base_hooks)
    (JillBagHost.handlePeerError JillBagHost.base_hooks)
    (JillBagHost.handleOpen JillBagHost.base_hooks)
    (JillBagHost.handleData JillBagHost.base_hooks)
    (fun otherId =>
       HostProps.asks_send otherId (PString "bye")
         (fun r => console_log (if r then "sent" else "not sent")))
    (JillBagHost.handleError JillBagHost.base_hooks).

Definition fresh_player : JillBagPlayer.State :=
  JillBagPlayer.constructor sevenths (fun _ => plain CloseDeferred) "ADHLOS".

(** Signaling is ready and the connection to the host opens. *)
Definition joining (conn : handle) : list JillBagPlayer.Step :=
  [JillBagPlayer.Notify (JillBagPlayer.PeerOpen "JillBagPlayerADHLOSWADH");
   JillBagPlayer.Notify (JillBagPlayer.ConnOpen conn)].

Definition joined : JillBagPlayer.State :=
  JillBagPlayer.run JillBagPlayer.base_hooks (joining 0) fresh_player.

(** The player hangs up, signaling becomes ready again and a second
    connection to the host opens; the close notification of the first
    connection has not been raised. *)
Definition redialed : JillBagPlayer.State :=
  JillBagPlayer.run JillBagPlayer.base_hooks
    (JillBagPlayer.CallCloseHost :: joining 1) joined.

Definition probing_player : JillBagPlayer.Hooks :=
  JillBagPlayer.mkHooks
    (JillBagPlayer.handlePeerReady JillBagPlayer.base_hooks)
    (JillBagPlayer.handlePeerError JillBagPlayer.base_hooks)
    (JillBagPlayer.handleOpen JillBagPlayer.base_hooks)
    (JillBagPlayer.handleData JillBagPlayer.base_hooks)
    (PlayerProps.asks_sendHost (PString "bye")
       (fun r => console_log (if r then "sent" else "not sent")))
    (JillBagPlayer.handleError JillBagPlayer.base_hooks).

End Scenarios.

(* ===================================================================== *)
(** ** Vocabulary of the further properties                              *)
(* ===================================================================== *)

Module MoreProps.
Import JS Transport Props Naming.


(** [n] copies of [s], one after the other. *)
Fixpoint repeat_string (n : nat) (s : string) : string :=
  match n with
  | 0 => ""
  | S n' => s +:+ repeat_string n' s
  end.

(** How many elements of [l] satisfy [p]. *)
Fixpoint count {A} (p : A -> bool) (l : list A) : nat :=
  match l with
  | [] => 0
  | x :: l' => (if p x then 1 else 0) + count p l'
  end.

(** The signaling client after [n] more calls of [reconnect()]. *)
Definition reconnected (n : nat) (p : Peer) : Peer :=
  mkPeer (peer_id p) (n + peer_reconnect_calls p) (peer_connect_calls p) (peer_dialed p).

(** What the open listener of the host does to connection [conn] that
    declares [otherId], from the notification on: marked open, and the
    data, close and error listeners registered. *)
Definition host_wiring (otherId : JillBagHost.Ident)
    (cn : Conn JillBagHost.Ident) : Conn JillBagHost.Ident :=
  add_on_error otherId (add_on_close otherId (add_on_data otherId (with_open true cn))).

(** The world in which the open hook of the host is called when [conn]
    opens under an identity that was not registered. *)
Definition host_opened (otherId : JillBagHost.Ident) (conn : handle)
    (w : JillBagHost.State) : JillBagHost.State :=
  set_conns (alter (host_wiring otherId) conn)
    (exec (JillBagHost.with_others (fun m => m ++ [(otherId, conn)])) w).

Definition host_is_disconnected (st : JillBagHost.Step) : bool :=
  match st with
  | JillBagHost.Notify JillBagHost.PeerDisconnected => true
  | _ => false
  end.

Definition host_is_open (st : JillBagHost.Step) : bool :=
  match st with
  | JillBagHost.Notify (JillBagHost.ConnOpen _) => true
  | _ => false
  end.

(** Every pair of the registry of [w] is a pair of the registry of [w0]. *)
Definition registry_within (w0 w : JillBagHost.State) : Prop :=
  forall k c, (k, c) ∈ JillBagHost.others w -> (k, c) ∈ JillBagHost.others w0.

(** The signaling client of [w] is [p]. *)
Definition peer_is {K Sess} (p : Peer) (w : World K Sess) : Prop := peer w = p.

(** A change of a connection object that keeps its metadata and all its
    listeners. *)
Definition keeps_listeners (f : Conn JillBagHost.Ident -> Conn JillBagHost.Ident) : Prop :=
  forall cn, conn_metadata (f cn) = conn_metadata cn /\
             conn_on_data (f cn) = conn_on_data cn /\
             conn_on_close (f cn) = conn_on_close cn /\
             conn_on_error (f cn) = conn_on_error cn.

(** A property kept by changes of connection objects that keep the
    listeners and by removals from the registry. *)
Record sturdy (P : JillBagHost.State -> Prop) : Prop := mkSturdy {
  sturdy_model : model_only P;
  sturdy_conn : forall c f, keeps_listeners f -> preserves P (update_conn c f);
  sturdy_delete : forall k, preserves P (JillBagHost.with_others (map_delete k));
  sturdy_clear : preserves P (JillBagHost.with_others map_clear)
}.

(** The listeners the open listener of the host registers. *)
Definition host_listeners (otherId : JillBagHost.Ident)
    (cn : Conn JillBagHost.Ident) : Conn JillBagHost.Ident :=
  add_on_error otherId (add_on_close otherId (add_on_data otherId cn)).

(** Every registered connection carries a data, a close and an error
    listener for the identity it is registered under, and every listener
    of a connection captured the identity that connection declares. *)
Record wired (w : JillBagHost.State) : Prop := mkWired {
  wired_entry : forall k c, (k, c) ∈ JillBagHost.others w ->
    exists cn, conns w !! c = Some cn /\
      k ∈ conn_on_data cn /\ k ∈ conn_on_close cn /\ k ∈ conn_on_error cn;
  wired_tags : forall c cn k, conns w !! c = Some cn ->
    k ∈ conn_on_data cn \/ k ∈ conn_on_close cn \/ k ∈ conn_on_error cn ->
    HostProps.declared cn = Some k
}.

(** The state of affairs while the open listener of [conn] runs. *)
Definition wiring (conn : handle) (md : gmap string string)
    (w : JillBagHost.State) : Prop :=
  wired w /\ HostProps.has_metadata conn md w.

(** A change of a connection object that counts one more call of
    [close()]. *)
Definition counts_close {K} (g : Conn K -> Conn K) : Prop :=
  forall cn, conn_close_calls (g cn) = S (conn_close_calls cn).

(** The listeners the open listener of the player registers. *)
Definition player_listeners (cn : Conn unit) : Conn unit :=
  add_on_error () (add_on_close () (add_on_data () cn)).

(** The world in which the open hook of the player is called when [conn]
    opens while [_conn] holds [c]. *)
Definition player_opened (conn c : handle) (w : JillBagPlayer.State) : JillBagPlayer.State :=
  set_conns (alter player_listeners c) (exec (update_conn conn (with_open true)) w).

Definition player_is_ready (st : JillBagPlayer.Step) : bool :=
  match st with
  | JillBagPlayer.Notify (JillBagPlayer.PeerOpen _) => true
  | _ => false
  end.

Definition player_is_disconnected (st : JillBagPlayer.Step) : bool :=
  match st with
  | JillBagPlayer.Notify JillBagPlayer.PeerDisconnected => true
  | _ => false
  end.

(** The room code and the identity of the player are [room] and
    [playerId]. *)
Definition player_names (room playerId : string) (w : JillBagPlayer.State) : Prop :=
  JillBagPlayer.hostId (this w) = room /\
  JillBagPlayer._playerId (this w) = playerId.

(** The signaling client after the connect attempts [calls]. *)
Definition dialled (calls : list (string * ConnectOptions)) (p : Peer) : Peer :=
  mkPeer (peer_id p) (peer_reconnect_calls p) (peer_connect_calls p ++ calls)
    (peer_dialed p).

(** The world [_connectToHost] leaves: a new connection object with the
    open listener, held by [_conn]. *)
Definition player_dialled (w : JillBagPlayer.State) : JillBagPlayer.State :=
  let c := length (conns w) in
  mkWorld
    (JillBagPlayer.mkFields (JillBagPlayer.hostId (this w))
       (JillBagPlayer._playerId (this w)) (Some c))
    (conns w ++
     [add_on_open (fresh_conn (Some {[ "id" := JillBagPlayer._playerId (this w) ]})
        (peer_dialed (peer w) c))])
    (dialled [PlayerProps.attempt w] (peer w))
    (console w).

(** A property of the player kept by every change of a connection
    object, by a new inbound connection object and by clearing [_conn]. *)
Record steady (P : JillBagPlayer.State -> Prop) : Prop := mkSteady {
  steady_model : model_only P;
  steady_conn : forall c f, preserves P (update_conn c f);
  steady_inbound : forall md b, preserves P (inbound md b);
  steady_clear : preserves P (JillBagPlayer.set_conn None)
}.

(** The values [_conn] may take after a step that does not dial: what it
    held, or [null]. *)
Definition kept_or_cleared (c : option handle) (c' : option handle) : Prop :=
  c' = c \/ c' = None.

(** Signaling becomes ready twice before the first connection opens. *)
Definition dialled_twice : JillBagPlayer.State :=
  JillBagPlayer.run JillBagPlayer.base_hooks
    [JillBagPlayer.Notify (JillBagPlayer.PeerOpen "JillBagPlayerADHLOSWADH");
     JillBagPlayer.Notify (JillBagPlayer.PeerOpen "JillBagPlayerADHLOSWADH")]
    Scenarios.fresh_player.

(** The player dials and hangs up before the connection opens. *)
Definition hung_up_early : JillBagPlayer.State :=
  JillBagPlayer.run JillBagPlayer.base_hooks
    [JillBagPlayer.Notify (JillBagPlayer.PeerOpen "JillBagPlayerADHLOSWADH");
     JillBagPlayer.CallCloseHost]
    Scenarios.fresh_player.

End MoreProps.

(* ===================================================================== *)
(** ** Facts about [Map] and about computations                          *)
(* ===================================================================== *)

Module MapFacts.
Import JS.

Section Facts.
Context {K V : Type} `{EqDecision K}.
Implicit Types (k : K) (v : V) (m : Map K V).

Lemma map_get_delete_eq k m : map_get k (map_delete k m) = None.
Proof.
  induction m as [|[k' v'] m IH]; simpl; [done|].
  destruct (decide (k' = k)) as [->|Hne]; [done|].
  simpl. by rewrite decide_False.
Qed.

Lemma map_get_delete_ne k k' m :
  k <> k' -> map_get k' (map_delete k m) = map_get k' m.
Proof.
  intros Hne. induction m as [|[k0 v0] m IH]; simpl; [done|].
  destruct (decide (k0 = k)) as [->|Hk0].
  - by rewrite decide_False.
  - simpl. by rewrite IH.
Qed.

Lemma map_delete_absent k m : map_get k m = None -> map_delete k m = m.
Proof.
  induction m as [|[k' v'] m IH]; simpl; [done|].
  destruct (decide (k' = k)); [done|]. intros Hm. by rewrite IH.
Qed.

Lemma map_delete_idem k m : map_delete k (map_delete k m) = map_delete k m.
Proof. apply map_delete_absent, map_get_delete_eq. Qed.

Lemma map_set_absent k v m : map_get k m = None -> map_set k v m = m ++ [(k, v)].
Proof.
  induction m as [|[k' v'] m IH]; simpl; [done|].
  destruct (decide (k' = k)); [done|]. intros Hm. by rewrite IH.
Qed.

Lemma map_get_set_eq k v m : map_get k (map_set k v m) = Some v.
Proof.
  induction m as [|[k' v'] m IH]; simpl.
  - by rewrite decide_True.
  - destruct (decide (k' = k)) as [->|Hne]; simpl.
    + by rewrite decide_True.
    + by rewrite decide_False.
Qed.

Lemma map_get_set_ne k k' v m : k <> k' -> map_get k' (map_set k v m) = map_get k' m.
Proof.
  intros Hne. induction m as [|[k0 v0] m IH]; simpl.
  - by rewrite decide_False.
  - destruct (decide (k0 = k)) as [->|Hk0]; simpl.
    + by rewrite !decide_False.
    + by rewrite IH.
Qed.

Lemma map_get_Some k v m : map_get k m = Some v -> (k, v) ∈ m.
Proof.
  induction m as [|[k' v'] m IH]; simpl; [done|].
  destruct (decide (k' = k)) as [->|Hne].
  - intros [= ->]. apply list_elem_of_here.
  - intros Hm. apply list_elem_of_further. by apply IH.
Qed.

Lemma map_get_None k m : map_get k m = None <-> k ∉ map_keys m.
Proof.
  induction m as [|[k' v'] m IH]; simpl.
  - split; [intros _; apply not_elem_of_nil | done].
  - rewrite not_elem_of_cons. destruct (decide (k' = k)) as [->|Hne].
    + split; [done | intros [? _]; done].
    + rewrite IH. split; [intros ?; split; [congruence | done] | intros [_ ?]; done].
Qed.

Lemma elem_of_map_delete k k' v m :
  (k', v) ∈ map_delete k m <-> k' <> k /\ (k', v) ∈ m.
Proof.
  induction m as [|[k0 v0] m IH]; simpl.
  - split; [intros Hin | intros [_ Hin]]; by apply elem_of_nil in Hin.
  - destruct (decide (k0 = k)) as [->|Hne].
    + rewrite IH, elem_of_cons. split; [intros [? ?]; auto | ].
      intros [Hk [[= ? ?]|?]]; [congruence | auto].
    + rewrite !elem_of_cons, IH. split.
      * intros [[= -> ->]|[? ?]]; auto.
      * intros [Hk [?|?]]; auto.
Qed.

Lemma map_keys_delete k k' m :
  k' ∈ map_keys (map_delete k m) <-> k' <> k /\ k' ∈ map_keys m.
Proof.
  unfold map_keys. induction m as [|[k0 v0] m IH]; simpl.
  - split; [intros Hin | intros [_ Hin]]; by apply elem_of_nil in Hin.
  - destruct (decide (k0 = k)) as [->|Hne].
    + rewrite IH, elem_of_cons. split; [intros [? ?]; auto | ].
      intros [Hk [?|?]]; [congruence | auto].
    + simpl. rewrite !elem_of_cons, IH. split.
      * intros [->|[? ?]]; auto.
      * intros [Hk [?|?]]; auto.
Qed.

Lemma NoDup_map_delete k m :
  NoDup (map_keys m) -> NoDup (map_keys (map_delete k m)).
Proof.
  induction m as [|[k0 v0] m IH]; simpl; [done|].
  intros [Hk0 Hm]%NoDup_cons. destruct (decide (k0 = k)); [by apply IH|].
  simpl. apply NoDup_cons. split; [|by apply IH].
  fold (map_keys (map_delete k m)). rewrite map_keys_delete. by intros [_ ?].
Qed.

Lemma map_keys_set k v k' m :
  k' ∈ map_keys (map_set k v m) <-> k' = k \/ k' ∈ map_keys m.
Proof.
  unfold map_keys. induction m as [|[k0 v0] m IH]; simpl.
  - rewrite list_elem_of_singleton. split; [by left | intros [?|Hin]; [done|]].
    by apply elem_of_nil in Hin.
  - destruct (decide (k0 = k)) as [->|Hne]; simpl; rewrite !elem_of_cons.
    + tauto.
    + rewrite IH. tauto.
Qed.

Lemma NoDup_map_set k v m :
  NoDup (map_keys m) -> NoDup (map_keys (map_set k v m)).
Proof.
  induction m as [|[k0 v0] m IH]; simpl.
  - intros _. apply NoDup_singleton.
  - intros [Hk0 Hm]%NoDup_cons. destruct (decide (k0 = k)) as [->|Hne]; simpl.
    + by apply NoDup_cons.
    + apply NoDup_cons. split; [|by apply IH].
      fold (map_keys (map_set k v m)). rewrite map_keys_set.
      intros [?|?]; [congruence | done].
Qed.

Lemma elem_of_map_keys k v m : (k, v) ∈ m -> k ∈ map_keys m.
Proof. intros Hin. unfold map_keys. apply (list_elem_of_fmap_2 fst) in Hin. exact Hin. Qed.

Lemma elem_of_map_set k v k' v' m :
  NoDup (map_keys m) ->
  (k', v') ∈ map_set k v m -> (k' = k /\ v' = v) \/ (k' <> k /\ (k', v') ∈ m).
Proof.
  induction m as [|[k0 v0] m IH]; simpl.
  - intros _ Hin. apply list_elem_of_singleton in Hin. left. by inversion Hin.
  - intros [Hk0 Hm]%NoDup_cons.
    destruct (decide (k0 = k)) as [->|Hne]; rewrite elem_of_cons.
    + intros [[= -> ->]|Hin]; [by left|].
      right. split; [|by apply list_elem_of_further].
      intros ->. apply Hk0. by eapply elem_of_map_keys.
    + intros [[= -> ->]|Hin].
      * right. split; [done|]. apply list_elem_of_here.
      * destruct (IH Hm Hin) as [?|[? ?]]; [by left|].
        right. split; [done|]. by apply list_elem_of_further.
Qed.

Lemma elem_of_map_get k v m :
  NoDup (map_keys m) -> (k, v) ∈ m -> map_get k m = Some v.
Proof.
  induction m as [|[k0 v0] m IH]; simpl.
  - intros _ Hin. by apply elem_of_nil in Hin.
  - intros [Hk0 Hm]%NoDup_cons. rewrite elem_of_cons.
    intros [[= -> ->]|Hin]; [by rewrite decide_True|].
    rewrite decide_False; [by apply IH|].
    intros ->. apply Hk0. by eapply elem_of_map_keys.
Qed.

Lemma map_count_absent k m : k ∉ map_keys m -> map_count k m = 0.
Proof.
  induction m as [|[k0 v0] m IH]; simpl; [done|].
  rewrite not_elem_of_cons. intros [Hne Hm].
  rewrite decide_False by congruence. by rewrite IH.
Qed.

Lemma map_count_NoDup k m : NoDup (map_keys m) -> map_count k m <= 1.
Proof.
  induction m as [|[k0 v0] m IH]; simpl; [lia|].
  intros [Hk0 Hm]%NoDup_cons. destruct (decide (k0 = k)) as [->|Hne].
  - rewrite map_count_absent by done. lia.
  - specialize (IH Hm). lia.
Qed.

Lemma map_count_get k m :
  NoDup (map_keys m) -> is_Some (map_get k m) -> map_count k m = 1.
Proof.
  induction m as [|[k0 v0] m IH]; simpl.
  - intros _ [? ?]. done.
  - intros [Hk0 Hm]%NoDup_cons. destruct (decide (k0 = k)) as [->|Hne].
    + intros _. by rewrite map_count_absent.
    + intros Hs. by rewrite IH.
Qed.

End Facts.
End MapFacts.

Module RunFacts.
Import JS Transport Props.

Section Computations.
Context {S : Type}.

Lemma run_bind {A B} (m : M S A) (k : A -> M S B) s :
  (m ≫= k) s =
  match m s with
  | (Normal a, s') => k a s'
  | (Throw e, s') => (Throw e, s')
  end.
Proof. reflexivity. Qed.

Lemma exec_gets_bind {A B} (f : S -> A) (k : A -> M S B) s :
  exec (gets f ≫= k) s = exec (k (f s)) s.
Proof. reflexivity. Qed.

Lemma exec_modify_bind {B} (f : S -> S) (k : unit -> M S B) s :
  exec (modify f ≫= k) s = exec (k tt) (f s).
Proof. reflexivity. Qed.

Lemma exec_try_catch (m : M S unit) s : exec (try_catch m) s = exec m s.
Proof. reflexivity. Qed.

Lemma for_each_cons {A} (f : A -> M S unit) x l :
  for_each f (x :: l) = (f x ≫= fun _ => for_each f l).
Proof. reflexivity. Qed.

Lemma total_ret {A} (a : A) : total (mret a : M S A).
Proof. intros s. by exists a. Qed.

Lemma total_gets {A} (f : S -> A) : total (gets f).
Proof. intros s. by exists (f s). Qed.

Lemma total_modify (f : S -> S) : total (modify f).
Proof. intros s. by exists tt. Qed.

Lemma total_try_catch (m : M S unit) : total (try_catch m).
Proof. intros s. by exists tt. Qed.

Lemma total_bind {A B} (m : M S A) (k : A -> M S B) :
  total m -> (forall a, total (k a)) -> total (m ≫= k).
Proof.
  intros Hm Hk s. unfold returns, result. rewrite run_bind.
  destruct (Hm s) as [a Ha]. unfold result in Ha.
  destruct (m s) as [[a'|e] s']; simpl in Ha; [|done].
  apply Hk.
Qed.

Lemma total_for_each {A} (f : A -> M S unit) l :
  (forall x, total (f x)) -> total (for_each f l).
Proof.
  intros Hf. induction l as [|x l IH]; simpl.
  - apply (total_ret tt).
  - apply (total_bind (f x)); [apply Hf | intros _; apply IH].
Qed.

Section Preserves.
Variable P : S -> Prop.

Lemma preserves_ret {A} (a : A) : preserves P (mret a : M S A).
Proof. by intros s Hs. Qed.

Lemma preserves_throw {A} e : preserves P (throw e : M S A).
Proof. by intros s Hs. Qed.

Lemma preserves_gets {A} (f : S -> A) : preserves P (gets f).
Proof. by intros s Hs. Qed.

Lemma preserves_modify (f : S -> S) :
  (forall s, P s -> P (f s)) -> preserves P (modify f).
Proof. intros Hf s Hs. by apply Hf. Qed.

Lemma preserves_bind {A B} (m : M S A) (k : A -> M S B) :
  preserves P m -> (forall a, preserves P (k a)) -> preserves P (m ≫= k).
Proof.
  intros Hm Hk s Hs. unfold exec. rewrite run_bind.
  specialize (Hm s Hs). unfold exec in Hm.
  destruct (m s) as [[a|e] s']; simpl in *; [|done].
  by apply Hk.
Qed.

Lemma preserves_try_catch (m : M S unit) :
  preserves P m -> preserves P (try_catch m).
Proof. intros Hm s Hs. by apply Hm. Qed.

Lemma preserves_for_each {A} (f : A -> M S unit) l :
  (forall x, preserves P (f x)) -> preserves P (for_each f l).
Proof.
  intros Hf. induction l as [|x l IH]; simpl.
  - apply (preserves_ret tt).
  - apply (preserves_bind (f x)); [apply Hf | intros _; apply IH].
Qed.

Lemma preserves_if {A} (b : bool) (m1 m2 : M S A) :
  preserves P m1 -> preserves P m2 -> preserves P (if b then m1 else m2).
Proof. by destruct b. Qed.

End Preserves.
End Computations.

Lemma exec_bind_ret {S} (m : M S unit) s : exec (m ≫= fun _ => mret tt) s = exec m s.
Proof.
  unfold exec. rewrite run_bind. by destruct (m s) as [[[]|e] s'].
Qed.

Lemma exec_bind_normal {S A B} (m : M S A) (k : A -> M S B) s a s' :
  m s = (Normal a, s') -> exec (m ≫= k) s = exec (k a) s'.
Proof. intros Hm. unfold exec. by rewrite run_bind, Hm. Qed.

Lemma total_run {S} (m : M S unit) s : total m -> m s = (Normal tt, exec m s).
Proof.
  intros Hm. destruct (Hm s) as [[] Ha]. unfold result, exec in *.
  destruct (m s) as [r s']. simpl in *. by subst.
Qed.


Section Worlds.
Context {K Sess : Type}.
Implicit Types w : World K Sess.

Lemma same_model_refl w : same_model w w.
Proof. done. Qed.

Lemma same_model_trans w1 w2 w3 :
  same_model w1 w2 -> same_model w2 w3 -> same_model w1 w3.
Proof. intros (?&?&?) (?&?&?). repeat split; congruence. Qed.

Lemma quiet_preserves {A} (P : World K Sess -> Prop) (m : M (World K Sess) A) :
  model_only P -> quiet m -> preserves P m.
Proof. intros HP Hm w Hw. apply (HP w); [apply Hm | done]. Qed.

Lemma quiet_console_log text : quiet (console_log text : M (World K Sess) unit).
Proof. by intros w. Qed.
Lemma quiet_console_log_data text d :
  quiet (console_log_data text d : M (World K Sess) unit).
Proof. by intros w. Qed.
Lemma quiet_console_warn text : quiet (console_warn text : M (World K Sess) unit).
Proof. by intros w. Qed.
Lemma quiet_console_error text : quiet (console_error text : M (World K Sess) unit).
Proof. by intros w. Qed.

End Worlds.
End RunFacts.

(* ===================================================================== *)
(** ** The host: the registry and its invariant                          *)
(* ===================================================================== *)

Module HostFacts.
Import JS Transport Props JillBagHost HostProps MapFacts RunFacts.

Lemma lookup_alter_inv {A} (f : A -> A) (c c0 : nat) (l : list A) (y : A) :
  alter f c l !! c0 = Some y ->
  exists x, l !! c0 = Some x /\ (y = x \/ (c0 = c /\ y = f x)).
Proof.
  destruct (decide (c0 = c)) as [->|Hne].
  - rewrite list_lookup_alter_eq. destruct (l !! c) as [x|]; simpl; [|done].
    intros [= <-]. exists x. split; [done|]. by right.
  - rewrite list_lookup_alter_ne by done. intros Hx. exists y. split; [done|]. by left.
Qed.

Lemma lookup_alter_fwd {A} (f : A -> A) (c c0 : nat) (l : list A) (x : A) :
  l !! c0 = Some x ->
  exists y, alter f c l !! c0 = Some y /\ (y = x \/ (c0 = c /\ y = f x)).
Proof.
  intros Hx. destruct (decide (c0 = c)) as [->|Hne].
  - rewrite list_lookup_alter_eq, Hx. simpl. exists (f x). split; [done|]. by right.
  - rewrite list_lookup_alter_ne by done. exists x. split; [done|]. by left.
Qed.

Lemma benign_declared f cn : benign f -> declared (f cn) = declared cn.
Proof. intros Hf. unfold declared. by destruct (Hf cn) as [-> _]. Qed.

Lemma benign_with_open b : benign (with_open b).
Proof. by intros cn. Qed.
Lemma benign_add_on_open : benign add_on_open.
Proof. by intros cn. Qed.
Lemma benign_add_on_data k : benign (add_on_data k).
Proof. by intros cn. Qed.
Lemma benign_add_on_error k : benign (add_on_error k).
Proof. by intros cn. Qed.
Lemma benign_add_sent d : benign (add_sent d).
Proof. by intros cn. Qed.
Lemma benign_add_close_call : benign add_close_call.
Proof. by intros cn. Qed.

Lemma consistent_model_only : model_only consistent.
Proof.
  intros w w' (Ht & Hc & _) [H1 H2 H3].
  split; unfold others in *; rewrite ?Ht, ?Hc; done.
Qed.

Lemma consistent_update_conn c f : benign f -> preserves consistent (update_conn c f).
Proof.
  intros Hf w [H1 H2 H3]. split; simpl.
  - done.
  - intros k c0 Hin. destruct (H2 k c0 Hin) as (cn & Hcn & Hd).
    destruct (lookup_alter_fwd f c c0 _ _ Hcn) as (y & Hy & Hcase).
    exists y. split; [exact Hy|].
    destruct Hcase as [->|[_ ->]]; [done|]. by rewrite benign_declared.
  - intros c0 cn' k Hcn' Hk.
    destruct (lookup_alter_inv f c c0 _ _ Hcn') as (x & Hx & [->|[_ ->]]).
    + by eapply H3.
    + rewrite benign_declared by done. eapply H3; [exact Hx|].
      by destruct (Hf x) as [_ <-].
Qed.

Lemma consistent_delete k : preserves consistent (with_others (map_delete k)).
Proof.
  intros w [H1 H2 H3]. split; simpl.
  - by apply NoDup_map_delete.
  - intros k' c Hin. apply elem_of_map_delete in Hin as [_ Hin]. by apply H2.
  - exact H3.
Qed.

Lemma consistent_clear : preserves consistent (with_others map_clear).
Proof.
  intros w [H1 H2 H3]. split; simpl.
  - apply NoDup_nil_2.
  - intros k' c Hin. by apply elem_of_nil in Hin.
  - exact H3.
Qed.

Lemma robust_consistent : robust consistent.
Proof.
  split.
  - apply consistent_model_only.
  - apply consistent_update_conn.
  - apply consistent_delete.
  - apply consistent_clear.
Qed.

Lemma robust_has_metadata conn md : robust (has_metadata conn md).
Proof.
  split.
  - intros w w' (_ & Hc & _) (cn & Hcn & Hmd). exists cn. by rewrite Hc.
  - intros c f Hf w (cn & Hcn & Hmd).
    destruct (lookup_alter_fwd f c conn _ _ Hcn) as (y & Hy & Hcase).
    exists y. split; [exact Hy|].
    destruct Hcase as [->|[_ ->]]; [done|]. by destruct (Hf cn) as [-> _].
  - by intros k w.
  - by intros w.
Qed.

Lemma robust_and (P Q : State -> Prop) :
  robust P -> robust Q -> robust (fun w => P w /\ Q w).
Proof.
  intros [P1 P2 P3 P4] [Q1 Q2 Q3 Q4]. split.
  - intros w w' Hw [? ?]. split; [by apply (P1 w) | by apply (Q1 w)].
  - intros c f Hf w [? ?]. split; [by apply P2 | by apply Q2].
  - intros k w [? ?]. split; [by apply P3 | by apply Q3].
  - intros w [? ?]. split; [by apply P4 | by apply Q4].
Qed.

(** *** [close] *)

Lemma close_run h otherId w :
  close h otherId w =
  (Normal tt,
   exec (with_others (map_delete otherId))
     (match map_get otherId (others w) with
      | Some c => exec (conn_close (on_conn_close h) c) w
      | None => w
      end)).
Proof.
  unfold close. rewrite run_bind. simpl.
  by destruct (map_get otherId (others w)).
Qed.

Lemma delete_absent otherId (w : State) :
  map_get otherId (others w) = None ->
  exec (with_others (map_delete otherId)) w = w.
Proof.
  intros Habs. destruct w as [[hid reg] cs p out]. unfold others in Habs.
  simpl in Habs. unfold exec, with_others, modify, set_this. simpl.
  by rewrite map_delete_absent.
Qed.

Lemma close_absent h otherId w :
  map_get otherId (others w) = None -> close h otherId w = (Normal tt, w).
Proof. intros Habs. rewrite close_run, Habs. by rewrite delete_absent. Qed.

Lemma close_removes h otherId w :
  map_get otherId (others (exec (close h otherId) w)) = None.
Proof. unfold exec. rewrite close_run. simpl. apply map_get_delete_eq. Qed.

Section Methods.
Variable h : Hooks.
Hypothesis Hq : quiet_hooks h.

Section Robust.
Variable P : State -> Prop.
Hypothesis HP : robust P.

Ltac keep :=
  repeat lazymatch goal with
  | |- preserves _ (mbind _ _) => apply preserves_bind; [|intros ?]
  | |- preserves _ (mret _) => apply preserves_ret
  | |- preserves _ (gets _) => apply preserves_gets
  | |- preserves _ (throw _) => apply preserves_throw
  | |- preserves _ (try_catch _) => apply preserves_try_catch
  | |- preserves _ (for_each _ _) => apply preserves_for_each; intros ?
  | |- preserves _ (with_others (map_delete _)) => apply (robust_delete P HP)
  | |- preserves _ (with_others map_clear) => apply (robust_clear P HP)
  | |- preserves _ (update_conn _ _) => apply (robust_conn P HP); by intros ?
  end.

Lemma hook_preserves {A} (m : M State A) : quiet m -> preserves P m.
Proof. apply quiet_preserves, HP. Qed.

Lemma on_conn_close_preserves otherId : preserves P (on_conn_close h otherId).
Proof.
  unfold on_conn_close. keep. apply hook_preserves, Hq.
Qed.

Lemma conn_close_preserves c : preserves P (conn_close (on_conn_close h) c).
Proof.
  unfold conn_close. keep. destruct a as [cn|]; keep.
  destruct (close_mode (conn_behaviour cn)); keep.
  destruct (conn_open cn); keep.
  apply on_conn_close_preserves.
Qed.

Lemma close_preserves otherId : preserves P (close h otherId).
Proof.
  unfold close. keep. destruct a as [c|]; keep. apply conn_close_preserves.
Qed.

Lemma closeAll_visit_preserves entry : preserves P (closeAll_visit h entry).
Proof.
  unfold closeAll_visit. keep. destruct a as [c|]; keep. apply conn_close_preserves.
Qed.

Lemma closeAll_preserves : preserves P (closeAll h).
Proof.
  unfold closeAll. keep. apply closeAll_visit_preserves.
Qed.

Lemma conn_send_preserves c d : preserves P (conn_send c d : M State unit).
Proof.
  unfold conn_send. keep. destruct a as [cn|]; keep.
  destruct (send_raises (conn_behaviour cn) d); keep.
Qed.

Lemma send_preserves otherId d : preserves P (send otherId d).
Proof.
  unfold send. keep. destruct (negb a0); keep.
  - apply hook_preserves, quiet_console_warn.
  - destruct a as [c|]; keep. apply conn_send_preserves.
Qed.

End Robust.

(** *** The open listener keeps the registry consistent *)

Lemma robust_opening conn md : robust (opening conn md).
Proof. apply robust_and; [apply robust_consistent | apply robust_has_metadata]. Qed.

Lemma opening_set conn md :
  preserves (opening conn md) (with_others (map_set (md !! "id") conn)).
Proof.
  intros w [[H1 H2 H3] Hmd]. split; [|exact Hmd].
  split; simpl.
  - by apply NoDup_map_set.
  - intros k c Hin. apply elem_of_map_set in Hin as [[-> ->]|[_ Hin]]; [|by apply H2|done].
    destruct Hmd as (cn & Hcn & Hcmd). exists cn. split; [done|].
    unfold declared. by rewrite Hcmd.
  - exact H3.
Qed.

Lemma opening_on_close conn md :
  preserves (opening conn md) (conn_on_close_add conn (md !! "id")).
Proof.
  intros w [[H1 H2 H3] Hmd]. split.
  - split; simpl.
    + done.
    + intros k c Hin. destruct (H2 k c Hin) as (cn & Hcn & Hd).
      destruct (lookup_alter_fwd (add_on_close (md !! "id")) conn c _ _ Hcn)
        as (y & Hy & Hcase).
      exists y. split; [exact Hy|]. by destruct Hcase as [->|[_ ->]].
    + intros c cn' k Hcn' Hk.
      destruct (lookup_alter_inv (add_on_close (md !! "id")) conn c _ _ Hcn')
        as (x & Hx & [->|[-> ->]]); [by eapply H3|].
      simpl in Hk. apply elem_of_app in Hk as [Hk|Hk]; [by eapply (H3 conn x)|].
      apply list_elem_of_singleton in Hk as ->.
      destruct Hmd as (cn & Hcn & Hcmd).
      pose proof (eq_trans (eq_sym Hx) Hcn) as [= ->].
      unfold declared. simpl. by rewrite Hcmd.
  - destruct Hmd as (cn & Hcn & Hcmd).
    destruct (lookup_alter_fwd (add_on_close (md !! "id")) conn conn _ _ Hcn)
      as (y & Hy & Hcase).
    exists y. split; [exact Hy|]. by destruct Hcase as [->|[_ ->]].
Qed.

Lemma on_conn_open_consistent conn : preserves consistent (on_conn_open h conn).
Proof.
  intros w Hw. unfold on_conn_open. rewrite exec_gets_bind.
  destruct (conns w !! conn) as [cn|] eqn:Hcn; [|done].
  destruct (conn_metadata cn) as [md|] eqn:Hmd; [|done].
  pose proof (robust_opening conn md) as HP.
  assert (Hgoal : preserves (opening conn md)
    (known ← gets (fun w => map_has (md !! "id") (others w));
     (if (known : bool) then close h (md !! "id") else mret tt);;
     with_others (map_set (md !! "id") conn);;
     conn_on_data_add conn (md !! "id");;
     conn_on_close_add conn (md !! "id");;
     conn_on_error_add conn (md !! "id");;
     handleOpen h (md !! "id"))).
  { apply preserves_bind; [apply preserves_gets|]. intros known.
    apply preserves_bind.
    { destruct known; [by apply close_preserves | apply preserves_ret]. }
    intros _. apply preserves_bind; [apply opening_set|]. intros _.
    apply preserves_bind; [apply (robust_conn _ HP), benign_add_on_data|]. intros _.
    apply preserves_bind; [apply opening_on_close|]. intros _.
    apply preserves_bind; [apply (robust_conn _ HP), benign_add_on_error|]. intros _.
    apply hook_preserves; [exact HP | apply Hq]. }
  apply Hgoal. split; [done|]. by exists cn.
Qed.

(** *** What a close request does to the world *)

Lemma others_same_model (w w' : State) : same_model w w' -> others w' = others w.
Proof. intros (Ht & _ & _). unfold others. by rewrite Ht. Qed.

Lemma on_conn_close_effect k w :
  others (exec (on_conn_close h k) w) = map_delete k (others w) /\
  conns (exec (on_conn_close h k) w) = conns w /\
  peer (exec (on_conn_close h k) w) = peer w.
Proof.
  unfold on_conn_close, with_others. rewrite exec_modify_bind.
  destruct Hq as (_ & _ & _ & _ & Hclose & _).
  destruct (Hclose k (set_this (fun t => mkFields (hostId t) (map_delete k (_others t))) w))
    as (Ht & Hc & Hp).
  unfold others. rewrite Ht, Hc, Hp. done.
Qed.

(** Close listeners that all captured [k] leave the registry as it is or
    without [k], and nothing else changes. *)
Lemma close_listeners_effect k ls w :
  (forall k', k' ∈ ls -> k' = k) ->
  (others (exec (for_each (on_conn_close h) ls) w) = others w \/
   others (exec (for_each (on_conn_close h) ls) w) = map_delete k (others w)) /\
  conns (exec (for_each (on_conn_close h) ls) w) = conns w /\
  peer (exec (for_each (on_conn_close h) ls) w) = peer w.
Proof.
  revert w. induction ls as [|k0 ls IH]; intros w Hls; simpl.
  - split; [by left | done].
  - assert (k0 = k) as -> by (apply Hls, list_elem_of_here).
    destruct (on_conn_close_effect k w) as (Ho & Hc & Hp).
    unfold exec in *. unfold bind.
    destruct (on_conn_close h k w) as [[[]|e] w1]; simpl in *.
    + destruct (IH w1) as ([Ho1|Ho1] & Hc1 & Hp1).
      { intros k' Hk'. apply Hls. by apply list_elem_of_further. }
      * rewrite Ho1, Hc1, Hp1, Ho, Hc, Hp. split; [by right | done].
      * rewrite Ho1, Hc1, Hp1, Ho, Hc, Hp, map_delete_idem. split; [by right | done].
    + rewrite Ho, Hc, Hp. split; [by right | done].
Qed.

Lemma conn_close_effect k c cn w :
  conns w !! c = Some cn ->
  (forall k', k' ∈ conn_on_close cn -> k' = k) ->
  let w' := exec (conn_close (on_conn_close h) c) w in
  (others w' = others w \/ others w' = map_delete k (others w)) /\
  (exists g, requests_close g /\ conns w' = alter g c (conns w)) /\
  peer w' = peer w.
Proof.
  intros Hcn Hls. unfold conn_close. rewrite exec_gets_bind, Hcn.
  cbv beta iota zeta. unfold update_conn. rewrite exec_modify_bind.
  destruct (close_mode (conn_behaviour cn)).
  - simpl. split; [by left|]. split; [|done]. by exists add_close_call.
  - destruct (conn_open cn).
    + rewrite exec_modify_bind.
      match goal with |- context [exec (for_each _ _) ?w0] =>
        destruct (close_listeners_effect k (conn_on_close cn) w0 Hls) as (Ho & Hc & Hp)
      end.
      simpl. rewrite Hc, Hp. split; [exact Ho|]. split; [|done].
      exists (with_open false ∘ add_close_call). split; [done|].
      simpl. by rewrite list_alter_alter_eq.
    + simpl. split; [by left|]. split; [|done]. by exists add_close_call.
  - simpl. split; [by left|]. split; [|done]. by exists add_close_call.
Qed.

Lemma close_listeners_frame ls w :
  conns (exec (for_each (on_conn_close h) ls) w) = conns w /\
  peer (exec (for_each (on_conn_close h) ls) w) = peer w.
Proof.
  apply (preserves_for_each (fun w' => conns w' = conns w /\ peer w' = peer w));
    [|done].
  intros k w1 [Hc Hp]. destruct (on_conn_close_effect k w1) as (_ & Hc1 & Hp1).
  split; congruence.
Qed.

Lemma conn_close_conns c cn w :
  conns w !! c = Some cn ->
  let w' := exec (conn_close (on_conn_close h) c) w in
  (exists g, requests_close g /\ conns w' = alter g c (conns w)) /\
  peer w' = peer w.
Proof.
  intros Hcn. unfold conn_close. rewrite exec_gets_bind, Hcn.
  cbv beta iota zeta. unfold update_conn. rewrite exec_modify_bind.
  destruct (close_mode (conn_behaviour cn)).
  - simpl. split; [|done]. by exists add_close_call.
  - destruct (conn_open cn).
    + rewrite exec_modify_bind.
      match goal with |- context [exec (for_each _ _) ?w0] =>
        destruct (close_listeners_frame (conn_on_close cn) w0) as (Hc & Hp)
      end.
      simpl. rewrite Hc, Hp. split; [|done].
      exists (with_open false ∘ add_close_call). split; [done|].
      simpl. by rewrite list_alter_alter_eq.
    + simpl. split; [|done]. by exists add_close_call.
  - simpl. split; [|done]. by exists add_close_call.
Qed.

Lemma close_calls_alter g c c' (w w' : State) :
  requests_close g -> conns w' = alter g c (conns w) ->
  close_calls c' w' =
    if decide (c' = c) then
      match conns w !! c with Some _ => S (close_calls c w) | None => 0 end
    else close_calls c' w.
Proof.
  intros Hg Hc. unfold close_calls. rewrite Hc.
  destruct (decide (c' = c)) as [->|Hne].
  - rewrite list_lookup_alter_eq. destruct (conns w !! c) as [cn|]; simpl; [|done].
    by destruct (Hg cn) as [-> _].
  - by rewrite list_lookup_alter_ne.
Qed.

(** *** What the open listener does to the world *)

Lemma close_calls_keep f c c' (w : State) :
  (forall cn, conn_close_calls (f cn) = conn_close_calls cn) ->
  close_calls c' (set_conns (alter f c) w) = close_calls c' w.
Proof.
  intros Hf. unfold close_calls. simpl.
  destruct (decide (c' = c)) as [->|Hne].
  - rewrite list_lookup_alter_eq. destruct (conns w !! c) as [cn|]; simpl; [|done].
    apply Hf.
  - by rewrite list_lookup_alter_ne.
Qed.

Lemma close_calls_same_model c (w w' : State) :
  same_model w w' -> close_calls c w' = close_calls c w.
Proof. intros (_ & Hc & _). unfold close_calls. by rewrite Hc. Qed.

Lemma others_with_others f (w : State) :
  others (exec (with_others f) w) = f (others w).
Proof. reflexivity. Qed.

Lemma close_calls_with_others f c (w : State) :
  close_calls c (exec (with_others f) w) = close_calls c w.
Proof. reflexivity. Qed.

(** The eviction step of the open listener. *)
Lemma evict_effect otherId w :
  consistent w ->
  let evict : M State unit :=
    if map_has otherId (others w) then close h otherId else mret tt in
  result evict w = Normal tt /\
  others (exec evict w) = map_delete otherId (others w) /\
  (forall prior, map_get otherId (others w) = Some prior ->
     close_calls prior (exec evict w) = S (close_calls prior w)) /\
  (forall c, map_get otherId (others w) <> Some c ->
     close_calls c (exec evict w) = close_calls c w).
Proof.
  intros Hw. unfold map_has.
  destruct (map_get otherId (others w)) as [prior|] eqn:Hget; simpl.
  - pose proof (map_get_Some _ _ _ Hget) as Hin.
    destruct (entry_declared w Hw _ _ Hin) as (cn & Hcn & Hd).
    assert (Hls : forall k', k' ∈ conn_on_close cn -> k' = otherId).
    { intros k' Hk'. pose proof (listener_declared w Hw _ _ _ Hcn Hk') as Hd'.
      congruence. }
    destruct (conn_close_effect otherId prior cn w Hcn Hls) as (Ho & (g & Hg & Hc) & _).
    assert (Hex : exec (close h otherId) w =
      exec (with_others (map_delete otherId))
        (exec (conn_close (on_conn_close h) prior) w)).
    { unfold exec at 1. by rewrite close_run, Hget. }
    split; [unfold result; by rewrite close_run|].
    rewrite Hex. split; [|split].
    + rewrite others_with_others.
      destruct Ho as [->| ->]; [done | apply map_delete_idem].
    + intros ? [= <-]. rewrite close_calls_with_others.
      erewrite (close_calls_alter g prior prior w) by (done || exact Hc).
      rewrite decide_True by done. unfold close_calls. by rewrite Hcn.
    + intros c Hne. rewrite close_calls_with_others.
      erewrite (close_calls_alter g prior c w) by (done || exact Hc).
      rewrite decide_False; [done | congruence].
  - split; [done|]. split; [by rewrite map_delete_absent|]. split; [done|done].
Qed.

Lemma on_conn_open_effect conn md w :
  consistent w -> has_metadata conn md w ->
  let w' := exec (on_conn_open h conn) w in
  others w' = map_delete (md !! "id") (others w) ++ [(md !! "id", conn)] /\
  (forall prior, map_get (md !! "id") (others w) = Some prior ->
     close_calls prior w' = S (close_calls prior w)) /\
  (forall c, map_get (md !! "id") (others w) <> Some c ->
     close_calls c w' = close_calls c w).
Proof.
  intros Hw (cn & Hcn & Hmd). unfold on_conn_open.
  rewrite exec_gets_bind, Hcn, Hmd. cbv beta iota zeta.
  rewrite exec_gets_bind.
  destruct (evict_effect (md !! "id") w Hw) as (Hr & Ho & Hprior & Hother).
  set (evict := if map_has (md !! "id") (others w) then close h (md !! "id") else mret tt)
    in *.
  assert (Hev : evict w = (Normal tt, exec evict w)).
  { unfold result, exec in *. destruct (evict w) as [r w1]. simpl in *. by subst. }
  rewrite (exec_bind_normal _ _ _ _ _ Hev).
  unfold with_others, conn_on_data_add, conn_on_close_add, conn_on_error_add, update_conn.
  rewrite !exec_modify_bind.
  destruct Hq as (_ & _ & Hopen & _).
  match goal with |- context [exec (handleOpen h _) ?w4] =>
    pose proof (Hopen (md !! "id") w4) as Hsame;
    set (w5 := exec (handleOpen h (md !! "id")) w4) in *
  end.
  split; [|split].
  - rewrite (others_same_model _ _ Hsame). unfold others in *. simpl.
    rewrite Ho. apply map_set_absent, map_get_delete_eq.
  - intros prior Hget. rewrite (close_calls_same_model _ _ _ Hsame).
    rewrite !close_calls_keep by done. by apply Hprior.
  - intros c Hne. rewrite (close_calls_same_model _ _ _ Hsame).
    rewrite !close_calls_keep by done. by apply Hother.
Qed.

(** *** The loop of [closeAll] *)

Lemma closeAll_visit_run k c w :
  consistent w -> (k, c) ∈ others w ->
  closeAll_visit h (k, c) w = (Normal tt, exec (conn_close (on_conn_close h) c) w).
Proof.
  intros Hw Hin. unfold closeAll_visit. rewrite run_bind. simpl.
  by rewrite (elem_of_map_get k c (others w)) by (apply Hw || done).
Qed.

(** Handles registered under different identities are different. *)
Lemma consistent_handles w k k' c :
  consistent w -> (k, c) ∈ others w -> (k', c) ∈ others w -> k = k'.
Proof.
  intros Hw Hin Hin'.
  destruct (entry_declared w Hw _ _ Hin) as (cn & Hcn & Hd).
  destruct (entry_declared w Hw _ _ Hin') as (cn' & Hcn' & Hd').
  congruence.
Qed.

Lemma closeAll_loop rest w :
  consistent w -> NoDup (map_keys rest) ->
  (forall k c, (k, c) ∈ rest -> (k, c) ∈ others w) ->
  let w' := exec (for_each (closeAll_visit h) rest) w in
  (forall k c, (k, c) ∈ rest -> close_calls c w' = S (close_calls c w)) /\
  (forall c, (forall k, (k, c) ∉ rest) -> close_calls c w' = close_calls c w) /\
  peer w' = peer w.
Proof.
  revert w. induction rest as [|[k c] rest IH]; intros w Hw Hnd Hsub.
  - split; [|done]. intros k c Hin. by apply elem_of_nil in Hin.
  - rewrite for_each_cons. simpl in Hnd. apply NoDup_cons in Hnd as [Hk Hnd].
    assert (Hin : (k, c) ∈ others w) by apply Hsub, list_elem_of_here.
    destruct (entry_declared w Hw _ _ Hin) as (cn & Hcn & Hd).
    assert (Hls : forall k', k' ∈ conn_on_close cn -> k' = k).
    { intros k' Hk'. pose proof (listener_declared w Hw _ _ _ Hcn Hk'). congruence. }
    destruct (conn_close_effect k c cn w Hcn Hls) as (Ho & (g & Hg & Hc) & Hp).
    rewrite (exec_bind_normal _ _ _ _ _ (closeAll_visit_run k c w Hw Hin)).
    set (w1 := exec (conn_close (on_conn_close h) c) w) in *.
    assert (Hw1 : consistent w1).
    { by apply (conn_close_preserves consistent robust_consistent). }
    assert (Hsub1 : forall k' c', (k', c') ∈ rest -> (k', c') ∈ others w1).
    { intros k' c' Hin'.
      assert ((k', c') ∈ others w) by (apply Hsub; by apply list_elem_of_further).
      destruct Ho as [->| ->]; [done|]. apply elem_of_map_delete. split; [|done].
      intros ->. apply Hk. by eapply elem_of_map_keys. }
    assert (Hfresh : forall k', (k', c) ∉ rest).
    { intros k' Hin'.
      assert (k = k') as <-.
      { eapply (consistent_handles w); [done | done |].
        apply Hsub. by apply list_elem_of_further. }
      apply Hk. by eapply elem_of_map_keys. }
    destruct (IH w1 Hw1 Hnd Hsub1) as (Hreg & Hfree & Hpeer).
    split; [|split].
    + intros k' c' [[= -> ->]|Hin']%elem_of_cons.
      * rewrite (Hfree c Hfresh).
        erewrite (close_calls_alter g c c w) by done.
        rewrite decide_True by done. unfold close_calls. by rewrite Hcn.
      * rewrite (Hreg k' c' Hin').
        erewrite (close_calls_alter g c c' w) by done.
        rewrite decide_False; [done|]. intros ->. by apply (Hfresh k').
    + intros c' Hc'. rewrite Hfree.
      * erewrite (close_calls_alter g c c' w) by done.
        rewrite decide_False; [done|]. intros ->. apply (Hc' k), list_elem_of_here.
      * intros k' Hin'. apply (Hc' k'). by apply list_elem_of_further.
    + by rewrite Hpeer.
Qed.

Lemma inbound_consistent md b : preserves consistent (inbound md b).
Proof.
  intros w [H1 H2 H3]. split; simpl.
  - done.
  - intros k c Hin. destruct (H2 k c Hin) as (cn & Hcn & Hd).
    exists cn. split; [|done]. by apply lookup_app_l_Some.
  - intros c cn k [Hcn|[_ Hcn]]%lookup_app_Some Hk; [by eapply H3|].
    apply list_lookup_singleton_Some in Hcn as [_ <-]. by apply elem_of_nil in Hk.
Qed.

Lemma peer_reconnect_consistent : preserves consistent (peer_reconnect : M State unit).
Proof. by intros w [H1 H2 H3]. Qed.

Lemma notify_consistent n : preserves consistent (notify h n).
Proof.
  pose proof robust_consistent as HP.
  destruct Hq as (Hq1 & Hq2 & Hq3 & Hq4 & Hq5 & Hq6).
  destruct n; simpl.
  - by apply hook_preserves.
  - by apply hook_preserves.
  - apply peer_reconnect_consistent.
  - apply preserves_bind; [apply inbound_consistent|]. intros conn.
    apply (robust_conn _ HP), benign_add_on_open.
  - apply preserves_bind; [apply (robust_conn _ HP), benign_with_open|]. intros _.
    apply preserves_bind; [apply preserves_gets|]. intros ls.
    apply preserves_for_each. intros _. apply on_conn_open_consistent.
  - apply preserves_bind; [apply preserves_gets|]. intros ls.
    apply preserves_for_each. intros otherId. by apply hook_preserves.
  - apply preserves_bind; [apply (robust_conn _ HP), benign_with_open|]. intros _.
    apply preserves_bind; [apply preserves_gets|]. intros ls.
    apply preserves_for_each. intros otherId. by apply on_conn_close_preserves.
  - apply preserves_bind; [apply preserves_gets|]. intros ls.
    apply preserves_for_each. intros otherId. by apply hook_preserves.
Qed.

Lemma step_consistent st : preserves consistent (step h st).
Proof.
  pose proof robust_consistent as HP.
  destruct st; simpl.
  - apply notify_consistent.
  - apply preserves_bind; [by apply send_preserves|]. intros _. apply preserves_ret.
  - by apply close_preserves.
  - by apply closeAll_preserves.
Qed.

Lemma run_consistent sts w : consistent w -> consistent (run h sts w).
Proof.
  revert w. induction sts as [|st sts IH]; intros w Hw; simpl; [done|].
  apply IH. by apply step_consistent.
Qed.

End Methods.

Lemma constructor_consistent random dialed : consistent (constructor random dialed).
Proof.
  split; simpl.
  - apply NoDup_nil_2.
  - intros k c Hin. by apply elem_of_nil in Hin.
  - intros c cn k Hcn. by rewrite lookup_nil in Hcn.
Qed.

Lemma base_hooks_quiet : quiet_hooks base_hooks.
Proof.
  repeat split; intros;
    apply quiet_console_log || apply quiet_console_error || apply quiet_console_log_data.
Qed.

(** *** The open notification *)

Lemma notify_ConnOpen_once h conn cn w :
  conns w !! conn = Some cn -> conn_on_open cn = [()] ->
  exec (notify h (ConnOpen conn)) w =
  exec (on_conn_open h conn) (exec (update_conn conn (with_open true)) w).
Proof.
  intros Hcn Hls. simpl. unfold update_conn at 1. rewrite exec_modify_bind.
  unfold listeners. rewrite exec_gets_bind. simpl.
  rewrite list_lookup_alter_eq, Hcn. simpl. rewrite Hls. simpl.
  apply (exec_bind_ret (on_conn_open h conn)).
Qed.

(** C1: whatever notifications and calls a host has gone through since it
    was constructed, its registry stores at most one pair per identity;
    and when a connection that declares an identity already registered
    opens, [close()] is called on the handle registered before, the old
    pair is removed and the new one is added at the end of the registry,
    which then holds the identity once, with the new handle (hooks that
    touch only the console). *)
Theorem last_connect_wins h random dialed sts :
  quiet_hooks h ->
  let w := run h sts (constructor random dialed) in
  (forall otherId, map_count otherId (others w) <= 1) /\
  (forall conn cn md prior,
     conns w !! conn = Some cn -> conn_on_open cn = [()] ->
     conn_metadata cn = Some md ->
     map_get (md !! "id") (others w) = Some prior ->
     let w' := exec (notify h (ConnOpen conn)) w in
     close_calls prior w' = S (close_calls prior w) /\
     others w' = map_delete (md !! "id") (others w) ++ [(md !! "id", conn)] /\
     map_get (md !! "id") (others w') = Some conn /\
     map_count (md !! "id") (others w') = 1).
Proof.
  intros Hq w.
  assert (Hw : consistent w) by apply (run_consistent h Hq), constructor_consistent.
  split.
  - intros otherId. apply map_count_NoDup, Hw.
  - intros conn cn md prior Hcn Hls Hmd Hget w'.
    assert (Hw' : consistent w').
    { apply (notify_consistent h Hq (ConnOpen conn)), Hw. }
    subst w'. rewrite (notify_ConnOpen_once h conn cn w Hcn Hls) in *.
    set (w0 := exec (update_conn conn (with_open true)) w) in *.
    assert (Hw0 : consistent w0).
    { apply (consistent_update_conn conn (with_open true)); [apply benign_with_open | done]. }
    assert (Hmd0 : has_metadata conn md w0).
    { exists (with_open true cn). split; [|done].
      subst w0. simpl. by rewrite list_lookup_alter_eq, Hcn. }
    destruct (on_conn_open_effect h Hq conn md w0 Hw0 Hmd0) as (Ho & Hprior & _).
    change (others w0) with (others w) in *.
    assert (Hhas : map_get (md !! "id") (others (exec (on_conn_open h conn) w0)) = Some conn).
    { rewrite Ho, <- (map_set_absent (md !! "id") conn) by apply map_get_delete_eq.
      apply map_get_set_eq. }
    split; [|split; [exact Ho|split; [exact Hhas|]]].
    + rewrite (Hprior prior Hget). f_equal. subst w0.
      apply (close_calls_keep (with_open true)). done.
    + apply map_count_get; [apply Hw' | by rewrite Hhas].
Qed.

(** C1, on a world: ALICEALICE is seated on handle 0 and a second
    connection that declares her opens as handle 1. *)
Lemma last_connect_wins_witness :
  close_calls 0 (Scenarios.reseated (Scenarios.plain CloseEmits)) = 1 /\
  others (Scenarios.reseated (Scenarios.plain CloseEmits)) = [(Scenarios.alice, 1)].
Proof.
  pose proof (last_connect_wins base_hooks Scenarios.sevenths
    (fun _ => Scenarios.plain CloseDeferred)
    (Scenarios.arrival (Scenarios.plain CloseEmits) 0 ++
     [Notify (PeerConnection (Scenarios.declares "ALICEALICE")
        (Scenarios.plain CloseEmits))])) as Hthm.
  destruct (Hthm base_hooks_quiet) as [_ Hopen].
  destruct (Hopen 1 (add_on_open (fresh_conn (Scenarios.declares "ALICEALICE")
      (Scenarios.plain CloseEmits))) {[ "id" := "ALICEALICE" ]} 0)
    as (Hcalls & Hothers & _); [vm_compute; reflexivity ..|].
  split; [exact Hcalls | exact Hothers].
Defined.

(** *** [closeAll] *)

Lemma closeAll_visit_total h entry : total (closeAll_visit h entry).
Proof.
  unfold closeAll_visit. apply total_bind; [apply total_gets|].
  intros [c|]; [apply total_try_catch | apply (total_ret tt)].
Qed.

Lemma closeAll_run h w :
  closeAll h w =
  (Normal tt,
   exec (with_others map_clear) (exec (for_each (closeAll_visit h) (others w)) w)).
Proof.
  unfold closeAll. rewrite run_bind. simpl. rewrite run_bind.
  rewrite (total_run (for_each (closeAll_visit h) (others w)) w); [done|].
  apply total_for_each, closeAll_visit_total.
Qed.

(** C4: [closeAll()] never throws and leaves the registry empty, from any
    world; on an empty registry it changes nothing; and on a consistent
    registry [close()] is called once on every registered handle, also on
    those where the call raises, while the signaling client is left as it
    was (hooks that touch only the console). *)
Theorem closeAll_empties h w :
  returns (closeAll h) w /\
  others (exec (closeAll h) w) = [] /\
  (others w = [] -> exec (closeAll h) w = w) /\
  (quiet_hooks h -> consistent w ->
   (forall k c, (k, c) ∈ others w ->
      close_calls c (exec (closeAll h) w) = S (close_calls c w)) /\
   peer (exec (closeAll h) w) = peer w).
Proof.
  assert (Hex : exec (closeAll h) w =
    exec (with_others map_clear) (exec (for_each (closeAll_visit h) (others w)) w)).
  { unfold exec at 1. by rewrite closeAll_run. }
  split; [|split; [|split]].
  - exists tt. unfold result. by rewrite closeAll_run.
  - by rewrite Hex.
  - intros Hempty. rewrite Hex, Hempty. destruct w as [[hid reg] cs p out].
    unfold others in Hempty. simpl in *. by subst.
  - intros Hq Hw. rewrite Hex.
    destruct (closeAll_loop h Hq (others w) w Hw) as (Hreg & _ & Hpeer);
      [apply Hw | done |].
    split; [|exact Hpeer]. intros k c Hin. rewrite close_calls_with_others.
    by apply (Hreg k).
Qed.

(** C4, on a world: two players are seated, [close] raises on the handle
    of the first; both handles are asked to close and the registry ends
    empty. *)
Lemma closeAll_empties_witness :
  others Scenarios.crowd = [(Scenarios.alice, 0); (Some "BOBBOBBOBB", 1)] /\
  result (closeAll base_hooks) Scenarios.crowd = Normal tt /\
  others (exec (closeAll base_hooks) Scenarios.crowd) = [] /\
  close_calls 0 (exec (closeAll base_hooks) Scenarios.crowd) = 1 /\
  close_calls 1 (exec (closeAll base_hooks) Scenarios.crowd) = 1.
Proof.
  destruct (closeAll_empties base_hooks Scenarios.crowd)
    as ([[] Hret] & Hempty & _ & Hcalls).
  destruct Hcalls as [Hcalls _].
  { apply base_hooks_quiet. }
  { apply (run_consistent base_hooks base_hooks_quiet), constructor_consistent. }
  split; [vm_compute; reflexivity|]. split; [exact Hret|]. split; [exact Hempty|].
  split.
  - apply (Hcalls Scenarios.alice 0). vm_compute. apply list_elem_of_here.
  - apply (Hcalls (Some "BOBBOBBOBB") 1). vm_compute.
    apply list_elem_of_further, list_elem_of_here.
Defined.

(** *** [close], continued *)

Lemma close_requests h otherId c w :
  quiet_hooks h ->
  map_get otherId (others w) = Some c -> is_Some (conns w !! c) ->
  close_calls c (exec (close h otherId) w) = S (close_calls c w) /\
  (forall c', c' <> c -> close_calls c' (exec (close h otherId) w) = close_calls c' w) /\
  peer (exec (close h otherId) w) = peer w.
Proof.
  intros Hq Hget [cn Hcn].
  assert (Hex : exec (close h otherId) w =
    exec (with_others (map_delete otherId)) (exec (conn_close (on_conn_close h) c) w)).
  { unfold exec at 1. by rewrite close_run, Hget. }
  rewrite Hex. clear Hex.
  destruct (conn_close_conns h Hq c cn w Hcn) as ((g & Hg & Hc) & Hp).
  split; [|split].
  - erewrite (close_calls_alter g c c w) by done. rewrite decide_True by done.
    by rewrite Hcn.
  - intros c' Hne. erewrite (close_calls_alter g c c' w) by done.
    by rewrite decide_False.
  - exact Hp.
Qed.

(** C7: [close(otherId)] is total and idempotent.  It never throws; after
    it the registry stores nothing under [otherId]; a second call changes
    nothing; on an identity that is not registered it changes nothing at
    all; and when a connection was registered, [close()] was called once on
    it, also when that call raised (hooks that touch only the console). *)
Theorem close_idempotent_total h otherId w :
  returns (close h otherId) w /\
  map_get otherId (others (exec (close h otherId) w)) = None /\
  exec (close h otherId) (exec (close h otherId) w) = exec (close h otherId) w /\
  (map_get otherId (others w) = None -> exec (close h otherId) w = w) /\
  (quiet_hooks h ->
   forall c, map_get otherId (others w) = Some c -> is_Some (conns w !! c) ->
   close_calls c (exec (close h otherId) w) = S (close_calls c w)).
Proof.
  split; [|split; [|split; [|split]]].
  - exists tt. unfold result. by rewrite close_run.
  - apply close_removes.
  - unfold exec at 1. rewrite close_absent; [done | apply close_removes].
  - intros Habs. unfold exec. by rewrite close_absent.
  - intros Hq c Hget Hc. by apply close_requests.
Qed.

(** C7, on a world: two players are seated and [close] raises on the
    handle of ALICEALICE; closing her returns, removes her pair and counts
    the call, and closing an identity that is not registered changes
    nothing. *)
Lemma close_idempotent_total_witness :
  map_get Scenarios.alice (others Scenarios.crowd) = Some 0 /\
  result (close base_hooks Scenarios.alice) Scenarios.crowd = Normal tt /\
  others (exec (close base_hooks Scenarios.alice) Scenarios.crowd) =
    [(Some "BOBBOBBOBB", 1)] /\
  close_calls 0 (exec (close base_hooks Scenarios.alice) Scenarios.crowd) = 1 /\
  exec (close base_hooks (Some "CAROLCAROL")) Scenarios.crowd = Scenarios.crowd.
Proof.
  destruct (close_idempotent_total base_hooks Scenarios.alice Scenarios.crowd)
    as ([[] Hret] & _ & _ & _ & Hcalls).
  destruct (close_idempotent_total base_hooks (Some "CAROLCAROL") Scenarios.crowd)
    as (_ & _ & _ & Hnoop & _).
  split; [vm_compute; reflexivity|]. split; [exact Hret|].
  split; [vm_compute; reflexivity|]. split.
  - apply (Hcalls base_hooks_quiet 0); vm_compute; [reflexivity | eauto].
  - apply Hnoop. vm_compute. reflexivity.
Defined.

(** *** [send] *)

Lemma send_unusable otherId data w :
  unusable otherId w = true ->
  send otherId data w =
  (Normal false, exec (console_warn ("No open connection to " +:+ show otherId)) w).
Proof.
  unfold unusable, send, mbind, M_bind, bind, gets.
  destruct (map_get otherId (others w)) as [c|]; [|done].
  by destruct (conn_is_open c w).
Qed.

Lemma send_usable otherId data c w :
  map_get otherId (others w) = Some c -> conn_is_open c w = true ->
  send otherId data w =
  if send_fails c data w then (Throw (Raised "send"), w)
  else (Normal true, set_conns (alter (add_sent data) c) w).
Proof.
  intros Hget Hopen.
  unfold send, conn_send, send_fails, mbind, M_bind, bind, gets.
  rewrite Hget, Hopen. simpl. unfold conn_is_open in Hopen.
  destruct (conns w !! c) as [cn|]; [|done].
  by destruct (send_raises (conn_behaviour cn) data).
Qed.





(** *** The close listener *)

Lemma notify_ConnClose_once h conn cn otherId w :
  conns w !! conn = Some cn -> conn_on_close cn = [otherId] ->
  exec (notify h (ConnClose conn)) w =
  exec (on_conn_close h otherId) (exec (update_conn conn (with_open false)) w).
Proof.
  intros Hcn Hls. simpl. unfold update_conn at 1. rewrite exec_modify_bind.
  unfold listeners. rewrite exec_gets_bind. simpl.
  rewrite list_lookup_alter_eq, Hcn. simpl. rewrite Hls.
  rewrite (for_each_cons (on_conn_close h) otherId []).
  apply (exec_bind_ret (on_conn_close h otherId)).
Qed.

(** C10: the close listener of a connection removes the identity from the
    registry before it calls the close hook: a close hook that calls
    [send] for that identity gets [false], with whatever payload and
    whatever it does next; so it is when the close notification of a
    connection with that listener is processed. *)
Theorem close_hook_send_false h otherId data k w :
  handleClose h otherId = asks_send otherId data k ->
  let removed := exec (with_others (map_delete otherId)) in
  let warned := exec (console_warn ("No open connection to " +:+ show otherId)) in
  map_get otherId (others (removed w)) = None /\
  result (send otherId data) (removed w) = Normal false /\
  on_conn_close h otherId w = k false (warned (removed w)) /\
  (forall conn cn, conns w !! conn = Some cn -> conn_on_close cn = [otherId] ->
   exec (notify h (ConnClose conn)) w =
   exec (k false) (warned (removed (exec (update_conn conn (with_open false)) w)))).
Proof.
  intros Hhook removed warned.
  assert (Hgone : forall w0, map_get otherId (others (removed w0)) = None)
    by (intros w0; apply map_get_delete_eq).
  assert (Hun : forall w0, unusable otherId (removed w0) = true)
    by (intros w0; unfold unusable; by rewrite Hgone).
  assert (Hrun : forall w0, on_conn_close h otherId w0 = k false (warned (removed w0))).
  { intros w0. unfold on_conn_close. rewrite Hhook. unfold asks_send.
    rewrite run_bind. simpl. rewrite run_bind.
    fold (exec (with_others (map_delete otherId)) w0). fold (removed w0).
    by rewrite send_unusable. }
  split; [done|]. split; [|split; [done|]].
  - unfold result. by rewrite send_unusable.
  - intros conn cn Hcn Hls.
    rewrite (notify_ConnClose_once h conn cn otherId w Hcn Hls).
    unfold exec at 1. by rewrite Hrun.
Qed.

(** C10, on a world: ALICEALICE is seated and the close listener of her
    connection runs with the probing hook, which is handed [false]. *)
Lemma close_hook_send_false_witness :
  handleClose Scenarios.probing_host Scenarios.alice =
    asks_send Scenarios.alice (PString "bye")
      (fun r => console_log (if r then "sent" else "not sent")) /\
  result (send Scenarios.alice (PString "bye"))
    (exec (with_others (map_delete Scenarios.alice))
       (Scenarios.seated (Scenarios.plain CloseDeferred))) = Normal false.
Proof.
  split; [reflexivity|].
  destruct (close_hook_send_false Scenarios.probing_host Scenarios.alice
    (PString "bye") (fun r => console_log (if r then "sent" else "not sent"))
    (Scenarios.seated (Scenarios.plain CloseDeferred)) eq_refl) as (_ & Hfalse & _).
  exact Hfalse.
Defined.

(** *** Notifications of a connection that is no longer registered *)

Lemma host_error_frame h conn err w :
  quiet_hooks h -> same_model w (exec (notify h (ConnError conn err)) w).
Proof.
  intros Hq.
  change (notify h (ConnError conn err)) with
    (ls ← listeners conn_on_error conn;
     for_each (fun otherId => handleError h otherId err) ls).
  unfold listeners. rewrite exec_gets_bind.
  apply (preserves_for_each (same_model w)); [|apply same_model_refl].
  intros otherId w1 Hw1. eapply same_model_trans; [exact Hw1|].
  apply Hq.
Qed.

(** The close listener removes what is registered under the identity it
    captured, whichever handle that is. *)
Lemma close_notification_removes h conn cn otherId w :
  quiet_hooks h ->
  conns w !! conn = Some cn -> conn_on_close cn = [otherId] ->
  map_get otherId (others (exec (notify h (ConnClose conn)) w)) = None.
Proof.
  intros Hq Hcn Hls. simpl. unfold update_conn. rewrite exec_modify_bind.
  unfold listeners. rewrite exec_gets_bind. simpl.
  rewrite list_lookup_alter_eq, Hcn. simpl. rewrite Hls.
  rewrite (for_each_cons (on_conn_close h) otherId []).
  rewrite (exec_bind_ret (on_conn_close h otherId)).
  match goal with |- context [exec (on_conn_close h otherId) ?w0] =>
    destruct (on_conn_close_effect h Hq otherId w0) as (-> & _)
  end.
  apply map_get_delete_eq.
Qed.

(** C2 fails on the code: ALICEALICE connects a second time, handle 0 is
    asked to close and handle 1 takes its place; when the close
    notification of handle 0 is raised after that, its listener removes
    the pair of handle 1, which is open, and [send] to ALICEALICE returns
    [false].  So it is when [close()] of handle 0 returned and when it
    raised. *)
Theorem late_close_unseats :
  (let reseated := Scenarios.reseated (Scenarios.plain CloseDeferred) in
   let late := run base_hooks [Notify (ConnClose 0)] reseated in
   others reseated = [(Scenarios.alice, 1)] /\
   close_calls 0 reseated = 1 /\
   others late = [] /\
   conn_is_open 1 late = true /\
   result (send Scenarios.alice (PString "hi")) late = Normal false) /\
  (let reseated := Scenarios.reseated (Scenarios.plain CloseThrows) in
   let late := run base_hooks [Notify (ConnClose 0)] reseated in
   others reseated = [(Scenarios.alice, 1)] /\
   close_calls 0 reseated = 1 /\
   others late = [] /\
   conn_is_open 1 late = true /\
   result (send Scenarios.alice (PString "hi")) late = Normal false).
Proof. vm_compute. auto 10. Qed.

(** When [close()] raises the close notification itself, the listener of
    the displaced connection runs before the new pair is stored, and the
    new pair stays. *)
Lemma close_within_keeps :
  others (Scenarios.reseated (Scenarios.plain CloseEmits)) = [(Scenarios.alice, 1)] /\
  conn_is_open 0 (Scenarios.reseated (Scenarios.plain CloseEmits)) = false /\
  conn_is_open 1 (Scenarios.reseated (Scenarios.plain CloseEmits)) = true.
Proof. vm_compute. auto. Qed.

End HostFacts.

(* ===================================================================== *)
(** ** The player: the connection slot and the connect attempts          *)
(* ===================================================================== *)

Module PlayerFacts.
Import JS Transport Props Naming JillBagPlayer PlayerProps RunFacts.

Lemma player_base_hooks_quiet : quiet_hooks base_hooks.
Proof.
  repeat split; intros;
    apply quiet_console_log || apply quiet_console_error || apply quiet_console_log_data.
Qed.

(** *** [sendHost] and the close listener *)

Lemma sendHost_not_connected data w :
  not_connected w = true ->
  sendHost data w = (Normal false, exec (console_warn "No open connection to host.") w).
Proof.
  intros Hidle. unfold sendHost, mbind, M_bind, bind, gets. by rewrite Hidle.
Qed.

Lemma player_ConnClose_once h conn cn w :
  conns w !! conn = Some cn -> conn_on_close cn = [()] ->
  exec (notify h (ConnClose conn)) w =
  exec (on_conn_close h ()) (exec (update_conn conn (with_open false)) w).
Proof.
  intros Hcn Hls. simpl. unfold update_conn at 1. rewrite exec_modify_bind.
  unfold listeners. rewrite exec_gets_bind. simpl.
  rewrite list_lookup_alter_eq, Hcn. simpl. rewrite Hls.
  rewrite (for_each_cons (on_conn_close h) () []).
  apply (exec_bind_ret (on_conn_close h ())).
Qed.

(** C6: the close listener of the player clears [_conn] before it calls
    the close hook: a close hook that calls [sendHost] gets [false], with
    whatever payload and whatever it does next; so it is when the close
    notification of a connection with that listener is processed. *)
Theorem close_hook_sendHost_false h data k w :
  handleClose h = asks_sendHost data k ->
  let cleared := exec (set_conn None) in
  let warned := exec (console_warn "No open connection to host.") in
  slot (cleared w) = None /\
  result (sendHost data) (cleared w) = Normal false /\
  on_conn_close h () w = k false (warned (cleared w)) /\
  (forall conn cn, conns w !! conn = Some cn -> conn_on_close cn = [()] ->
   exec (notify h (ConnClose conn)) w =
   exec (k false) (warned (cleared (exec (update_conn conn (with_open false)) w)))).
Proof.
  intros Hhook cleared warned.
  assert (Hidle : forall w0, not_connected (cleared w0) = true) by done.
  assert (Hrun : forall w0, on_conn_close h () w0 = k false (warned (cleared w0))).
  { intros w0. unfold on_conn_close. rewrite Hhook. unfold asks_sendHost.
    rewrite run_bind. simpl. rewrite run_bind.
    fold (exec (set_conn None) w0). fold (cleared w0).
    by rewrite sendHost_not_connected. }
  split; [done|]. split; [|split; [done|]].
  - unfold result. by rewrite sendHost_not_connected.
  - intros conn cn Hcn Hls.
    rewrite (player_ConnClose_once h conn cn w Hcn Hls).
    unfold exec at 1. by rewrite Hrun.
Qed.

(** C6, on a world: the player has joined and the close listener of its
    connection runs with the probing hook, which is handed [false]. *)
Lemma close_hook_sendHost_false_witness :
  handleClose Scenarios.probing_player =
    asks_sendHost (PString "bye")
      (fun r => console_log (if r then "sent" else "not sent")) /\
  slot Scenarios.joined = Some 0 /\
  result (sendHost (PString "bye")) Scenarios.joined = Normal true /\
  result (sendHost (PString "bye")) (exec (set_conn None) Scenarios.joined) = Normal false.
Proof.
  split; [reflexivity|]. split; [vm_compute; reflexivity|].
  split; [vm_compute; reflexivity|].
  destruct (close_hook_sendHost_false Scenarios.probing_player (PString "bye")
    (fun r => console_log (if r then "sent" else "not sent")) Scenarios.joined
    eq_refl) as (_ & Hfalse & _).
  exact Hfalse.
Defined.

(** *** Connect attempts *)

Section Attempts.
Variable h : Hooks.
Hypothesis Hq : quiet_hooks h.
Variable calls : list (string * ConnectOptions).

Lemma so_far_modify (f : State -> State) :
  (forall w, peer_connect_calls (peer (f w)) = peer_connect_calls (peer w)) ->
  preserves (so_far calls) (modify f).
Proof. intros Hf w Hw. unfold so_far, connect_calls in *. simpl. by rewrite Hf. Qed.

Lemma so_far_quiet {A} (m : M State A) : quiet m -> preserves (so_far calls) m.
Proof.
  intros Hm w Hw. destruct (Hm w) as (_ & _ & Hp).
  unfold so_far, connect_calls in *. by rewrite Hp.
Qed.

Ltac keep :=
  repeat lazymatch goal with
  | |- preserves _ (mbind _ _) => apply preserves_bind; [|intros ?]
  | |- preserves _ (mret _) => apply preserves_ret
  | |- preserves _ (gets _) => apply preserves_gets
  | |- preserves _ (throw _) => apply preserves_throw
  | |- preserves _ (try_catch _) => apply preserves_try_catch
  | |- preserves _ (for_each _ _) => apply preserves_for_each; intros ?
  | |- preserves _ (modify _) => apply so_far_modify; by intros ?
  | |- preserves _ (update_conn _ _) => unfold update_conn
  | |- preserves _ (set_conn _) => unfold set_conn
  | |- preserves _ (console_warn _) => apply so_far_quiet, quiet_console_warn
  end.







End Attempts.




(** *** Notifications of a connection that is no longer in the slot *)

Lemma player_error_frame h conn err w :
  quiet_hooks h -> same_model w (exec (notify h (ConnError conn err)) w).
Proof.
  intros Hq.
  change (notify h (ConnError conn err)) with
    (ls ← listeners conn_on_error conn;
     for_each (fun _ => handleError h err) ls).
  unfold listeners. rewrite exec_gets_bind.
  apply (preserves_for_each (same_model w)); [|apply same_model_refl].
  intros u w1 Hw1. eapply same_model_trans; [exact Hw1|].
  apply Hq.
Qed.

End PlayerFacts.

(* ===================================================================== *)
(** ** The naming scheme                                                 *)
(* ===================================================================== *)

Module NamingFacts.
Import JS Transport Props Naming.

Lemma length_append (s1 s2 : string) :
  String.length (s1 +:+ s2) = String.length s1 + String.length s2.
Proof. induction s1 as [|a s1 IH]; simpl; [done | by rewrite IH]. Qed.








End NamingFacts.

(* ===================================================================== *)
(** ** Close notifications that arrive late                              *)
(* ===================================================================== *)

Module LateClose.
Import JS Transport Props.

(** C8 fails on the code in its last clause.  An error notification
    changes neither the registry nor the slot, but the close notification
    of a connection that was displaced removes what took its place: on the
    host the pair of handle 1, registered for the same identity after
    handle 0 was asked to close, and on the player the handle 1 dialled
    after [closeHost()] on handle 0; both handles 1 are open. *)
Theorem late_close_clears_successor :
  (let host := Scenarios.reseated (Scenarios.plain CloseThrows) in
   let after_error :=
     JillBagHost.run JillBagHost.base_hooks
       [JillBagHost.Notify (JillBagHost.ConnError 0 "lost")] host in
   let after_close :=
     JillBagHost.run JillBagHost.base_hooks
       [JillBagHost.Notify (JillBagHost.ConnClose 0)] host in
   JillBagHost.others host = [(Scenarios.alice, 1)] /\
   JillBagHost.others after_error = [(Scenarios.alice, 1)] /\
   JillBagHost.others after_close = [] /\
   conn_is_open 1 after_close = true) /\
  (let player := Scenarios.redialed in
   let after_error :=
     JillBagPlayer.run JillBagPlayer.base_hooks
       [JillBagPlayer.Notify (JillBagPlayer.ConnError 0 "lost")] player in
   let after_close :=
     JillBagPlayer.run JillBagPlayer.base_hooks
       [JillBagPlayer.Notify (JillBagPlayer.ConnClose 0)] player in
   JillBagPlayer.slot player = Some 1 /\
   JillBagPlayer.slot after_error = Some 1 /\
   JillBagPlayer.slot after_close = None /\
   conn_is_open 1 after_close = true).
Proof. vm_compute. auto 10. Qed.

End LateClose.

(* ===================================================================== *)
(** ** [randomString] with any alphabet                                  *)
(* ===================================================================== *)

Module NamingMore.
Import JS Transport Props Naming MoreProps.

Lemma append_cons (a : ascii) (s1 s2 : string) :
  String a s1 +:+ s2 = String a (s1 +:+ s2).
Proof. reflexivity. Qed.

Lemma append_assoc (s1 s2 s3 : string) : (s1 +:+ s2) +:+ s3 = s1 +:+ (s2 +:+ s3).
Proof.
  induction s1 as [|a s1 IH]; [done|]. rewrite !append_cons. by f_equal.
Qed.

Lemma append_empty_r (s : string) : s +:+ "" = s.
Proof. induction s as [|a s IH]; [done|]. rewrite append_cons. by f_equal. Qed.









Lemma randomString_empty_loop (random : nat -> Q) (l : list nat) acc :
  fold_left
    (fun result i => append_char result (char_at "" (random_index (random i) "")))
    l acc =
  acc +:+ repeat_string (length l) "undefined".
Proof.
  revert acc. induction l as [|i l IH]; intros acc.
  - simpl. by rewrite append_empty_r.
  - assert (Hidx : random_index (random i) "" = 0%Z).
    { unfold random_index, Qfloor, Qmult. destruct (random i) as [n d]. simpl.
      rewrite Z.mul_0_r. apply Z.div_0_l. lia. }
    cbn [fold_left length]. rewrite IH, Hidx.
    change (append_char acc (char_at "" 0%Z)) with (acc +:+ "undefined").
    change (repeat_string (S (length l)) "undefined")
      with ("undefined" +:+ repeat_string (length l) "undefined").
    apply append_assoc.
Qed.

(** X2: the edges of [randomString].  With length 0 the result is the
    empty string whatever the alphabet; with the empty alphabet every turn
    of the loop reads [alphabet[0]], which is [undefined], and appends its
    name, so the result is ["undefined"] repeated [len] times, 9 characters
    per turn, whatever [Math.random] returns. *)
Theorem randomString_edges random len alphabet :
  randomString_with random 0 alphabet = "" /\
  randomString_with random len "" = repeat_string len "undefined" /\
  String.length (randomString_with random len "") = 9 * len.
Proof.
  split; [done|].
  assert (Hrun : randomString_with random len "" = repeat_string len "undefined").
  { unfold randomString_with. rewrite randomString_empty_loop.
    by rewrite length_seq. }
  split; [done|]. rewrite Hrun. clear Hrun.
  induction len as [|len IH]; [done|].
  simpl repeat_string. rewrite NamingFacts.length_append, IH. simpl. lia.
Qed.

End NamingMore.

(* ===================================================================== *)
(** ** The host: further properties                                      *)
(* ===================================================================== *)

Module HostMore.
Import JS Transport Props JillBagHost HostProps MoreProps MapFacts RunFacts HostFacts.

(** *** Sending after closing, and sending in a row *)

(** X3: after [close(otherId)], [send] to that identity returns [false],
    and after [closeAll()], [send] to any identity returns [false];
    whatever the hooks are and whatever the connections do when closed. *)
Theorem send_after_close h otherId other data w :
  result (send otherId data) (exec (close h otherId) w) = Normal false /\
  result (send other data) (exec (closeAll h) w) = Normal false.
Proof.
  split.
  - unfold result. rewrite send_unusable; [done|].
    unfold unusable. by rewrite close_removes.
  - unfold result. rewrite send_unusable; [done|].
    unfold unusable, exec. by rewrite closeAll_run.
Qed.

Lemma run_cons h st sts w : run h (st :: sts) w = run h sts (exec (step h st) w).
Proof. reflexivity. Qed.

Lemma sent_after_send data c (w : State) :
  is_Some (conns w !! c) ->
  sent c (set_conns (alter (add_sent data) c) w) = sent c w ++ [data].
Proof.
  intros [cn Hcn]. unfold sent. simpl. by rewrite list_lookup_alter_eq, Hcn.
Qed.

Lemma send_fails_after_send d data c c' (w : State) :
  send_fails c' d (set_conns (alter (add_sent data) c) w) = send_fails c' d w.
Proof.
  unfold send_fails. simpl. destruct (decide (c' = c)) as [->|Hne].
  - rewrite list_lookup_alter_eq. by destruct (conns w !! c).
  - by rewrite list_lookup_alter_ne.
Qed.

Lemma is_open_after_send data c c' (w : State) :
  conn_is_open c' (set_conns (alter (add_sent data) c) w) = conn_is_open c' w.
Proof.
  unfold conn_is_open. simpl. destruct (decide (c' = c)) as [->|Hne].
  - rewrite list_lookup_alter_eq. by destruct (conns w !! c).
  - by rewrite list_lookup_alter_ne.
Qed.

(** X4: calls of [send] to one identity, registered with an open
    connection that accepts the payloads, hand the payloads to that
    connection in the order of the calls and leave the registry alone. *)
Theorem sends_in_order h otherId c ds w :
  map_get otherId (others w) = Some c -> conn_is_open c w = true ->
  (forall d, d ∈ ds -> send_fails c d w = false) ->
  sent c (run h (map (CallSend otherId) ds) w) = sent c w ++ ds /\
  others (run h (map (CallSend otherId) ds) w) = others w.
Proof.
  revert w. induction ds as [|d ds IH]; intros w Hget Hopen Hok.
  - simpl. by rewrite app_nil_r.
  - change (map (CallSend otherId) (d :: ds))
      with (CallSend otherId d :: map (CallSend otherId) ds).
    rewrite !run_cons.
    assert (Hstep : exec (step h (CallSend otherId d)) w =
                    set_conns (alter (add_sent d) c) w).
    { simpl. unfold exec. rewrite run_bind, (send_usable _ _ c) by done.
      rewrite Hok; [done | apply list_elem_of_here]. }
    rewrite Hstep.
    destruct (IH (set_conns (alter (add_sent d) c) w)) as [Hsent Hothers].
    + done.
    + by rewrite is_open_after_send.
    + intros d' Hd'. rewrite send_fails_after_send. apply Hok.
      by apply list_elem_of_further.
    + rewrite Hsent, Hothers. split; [|done].
      rewrite sent_after_send, <- app_assoc; [done|].
      unfold conn_is_open in Hopen. by destruct (conns w !! c).
Qed.

(** X4, on a world: three payloads to ALICEALICE. *)
Lemma sends_in_order_witness :
  sent 0 (run base_hooks
    (map (CallSend Scenarios.alice) [PString "a"; PNull; PString "b"])
    (Scenarios.seated (Scenarios.plain CloseDeferred))) =
  [PString "a"; PNull; PString "b"].
Proof.
  apply (sends_in_order base_hooks Scenarios.alice 0
    [PString "a"; PNull; PString "b"]
    (Scenarios.seated (Scenarios.plain CloseDeferred))).
  - vm_compute. reflexivity.
  - vm_compute. reflexivity.
  - intros d _. vm_compute. reflexivity.
Defined.

(** *** The open notification of a connection not yet registered *)

Lemma notify_ConnOpen_run h conn cn w :
  conns w !! conn = Some cn -> conn_on_open cn = [()] ->
  notify h (ConnOpen conn) w =
  (on_conn_open h conn ≫= fun _ => mret tt)
    (exec (update_conn conn (with_open true)) w).
Proof.
  intros Hcn Hls.
  change (notify h (ConnOpen conn)) with
    (update_conn conn (with_open true);;
     ls ← listeners conn_on_open conn;
     for_each (fun _ => on_conn_open h conn) ls).
  unfold update_conn at 1. rewrite run_bind. simpl.
  unfold listeners. rewrite run_bind. simpl.
  rewrite list_lookup_alter_eq, Hcn. simpl. by rewrite Hls.
Qed.

(** X5: when a connection without metadata opens, the open listener
    throws a [TypeError] on reading [conn.metadata.id]: nothing is
    registered, no listener is added to the connection and no hook is
    called; the world is as the client left it when it marked the
    connection open. *)
Theorem open_without_metadata h conn cn w :
  conns w !! conn = Some cn -> conn_on_open cn = [()] ->
  conn_metadata cn = None ->
  notify h (ConnOpen conn) w =
  (Throw (TypeError "Cannot read properties of undefined (reading 'id')"),
   exec (update_conn conn (with_open true)) w).
Proof.
  intros Hcn Hls Hmd. rewrite (notify_ConnOpen_run h conn cn w Hcn Hls).
  rewrite run_bind. unfold on_conn_open. rewrite run_bind. simpl.
  rewrite list_lookup_alter_eq, Hcn. simpl. by rewrite Hmd.
Qed.

(** X5, on a world: a connection without metadata arrives at a fresh host
    and opens. *)
Lemma open_without_metadata_witness :
  result (notify base_hooks (ConnOpen 0))
    (run base_hooks [Notify (PeerConnection None (Scenarios.plain CloseDeferred))]
       Scenarios.fresh_host) =
    Throw (TypeError "Cannot read properties of undefined (reading 'id')") /\
  others (exec (notify base_hooks (ConnOpen 0))
    (run base_hooks [Notify (PeerConnection None (Scenarios.plain CloseDeferred))]
       Scenarios.fresh_host)) = [].
Proof.
  unfold result, exec.
  rewrite (open_without_metadata base_hooks 0
    (add_on_open (fresh_conn None (Scenarios.plain CloseDeferred)))
    (run base_hooks [Notify (PeerConnection None (Scenarios.plain CloseDeferred))]
       Scenarios.fresh_host) eq_refl eq_refl eq_refl).
  split; reflexivity.
Defined.

Lemma on_conn_open_fresh h conn cn md w :
  conns w !! conn = Some cn -> conn_metadata cn = Some md ->
  map_get (md !! "id") (others w) = None ->
  on_conn_open h conn (exec (update_conn conn (with_open true)) w) =
  handleOpen h (md !! "id") (host_opened (md !! "id") conn w).
Proof.
  intros Hcn Hmd Hnew. unfold others in Hnew.
  unfold on_conn_open, close, with_others, conn_on_data_add, conn_on_close_add,
    conn_on_error_add, update_conn, mbind, M_bind, bind, gets, modify, exec,
    map_has, others, mret, M_ret, ret.
  simpl. rewrite list_lookup_alter_eq, Hcn. simpl. rewrite Hmd.
  change (this (set_conns (alter (with_open true) conn) w)) with (this w).
  rewrite Hnew.
  f_equal. unfold host_opened, host_wiring, with_others, modify, set_conns, set_this, exec.
  simpl. f_equal.
  - f_equal. by apply map_set_absent.
  - by rewrite !list_alter_alter_eq.
Qed.

(** X6: when a connection that declares an identity not yet registered
    opens, the open hook is called once, last, in a world where the
    identity is already registered at the end of the registry with that
    connection, the connection is open and carries its data, close and
    error listeners; so a [send] to the new identity from within the open
    hook returns [true] and hands the payload to the new connection, if
    that connection accepts it. *)
Theorem open_registers_then_hook h conn cn md w :
  conns w !! conn = Some cn -> conn_on_open cn = [()] ->
  conn_metadata cn = Some md ->
  map_get (md !! "id") (others w) = None ->
  let otherId := md !! "id" in
  let w1 := host_opened otherId conn w in
  exec (notify h (ConnOpen conn)) w = exec (handleOpen h otherId) w1 /\
  others w1 = others w ++ [(otherId, conn)] /\
  map_get otherId (others w1) = Some conn /\
  conn_is_open conn w1 = true /\
  (forall data, send_fails conn data w = false ->
     result (send otherId data) w1 = Normal true /\
     sent conn (exec (send otherId data) w1) = sent conn w ++ [data]).
Proof.
  intros Hcn Hls Hmd Hnew otherId w1.
  assert (Hget : map_get otherId (others w1) = Some conn).
  { change (others w1) with (others w ++ [(otherId, conn)]).
    rewrite <- (map_set_absent otherId conn) by done. apply map_get_set_eq. }
  assert (Hlook : conns w1 !! conn = Some (host_wiring otherId cn)).
  { unfold w1, host_opened. simpl. by rewrite list_lookup_alter_eq, Hcn. }
  assert (Hopen : conn_is_open conn w1 = true).
  { unfold conn_is_open. by rewrite Hlook. }
  split; [|split; [done|split; [done|split; [done|]]]].
  - unfold exec at 1. rewrite (notify_ConnOpen_run h conn cn w Hcn Hls).
    rewrite run_bind, (on_conn_open_fresh h conn cn md w Hcn Hmd Hnew).
    fold otherId. fold w1. unfold exec.
    by destruct (handleOpen h otherId w1) as [[[]|e] w2].
  - intros data Hok.
    assert (Hok1 : send_fails conn data w1 = false).
    { unfold send_fails in *. rewrite Hlook. by rewrite Hcn in Hok. }
    unfold result, exec. rewrite (send_usable _ _ conn), Hok1 by done.
    split; [done|]. cbn [snd]. rewrite sent_after_send by (by rewrite Hlook).
    unfold sent. by rewrite Hlook, Hcn.
Qed.

(** X6, on a world: ALICEALICE arrives at a fresh host; when her
    connection opens she is registered and the host can send to her. *)
Lemma open_registers_then_hook_witness :
  others (host_opened Scenarios.alice 0
    (run base_hooks
       [Notify (PeerConnection (Scenarios.declares "ALICEALICE")
          (Scenarios.plain CloseDeferred))] Scenarios.fresh_host)) =
    [(Scenarios.alice, 0)] /\
  result (send Scenarios.alice (PString "start"))
    (host_opened Scenarios.alice 0
       (run base_hooks
          [Notify (PeerConnection (Scenarios.declares "ALICEALICE")
             (Scenarios.plain CloseDeferred))] Scenarios.fresh_host)) = Normal true.
Proof.
  destruct (open_registers_then_hook base_hooks 0
    (add_on_open (fresh_conn (Scenarios.declares "ALICEALICE")
       (Scenarios.plain CloseDeferred)))
    {[ "id" := "ALICEALICE" ]}
    (run base_hooks
       [Notify (PeerConnection (Scenarios.declares "ALICEALICE")
          (Scenarios.plain CloseDeferred))] Scenarios.fresh_host))
    as (_ & Hothers & _ & _ & Hsend); [vm_compute; reflexivity ..|].
  split; [exact Hothers|].
  destruct (Hsend (PString "start")) as [Hres _]; [vm_compute; reflexivity|].
  exact Hres.
Defined.

(** *** What no step but an open notification does *)

Lemma robust_registry_within w0 : robust (registry_within w0).
Proof.
  split.
  - intros w w' Hsame Hw k c Hin. apply Hw.
    by rewrite (others_same_model _ _ Hsame) in Hin.
  - intros c f _ w Hw. exact Hw.
  - intros k w Hw k' c Hin. apply elem_of_map_delete in Hin as [_ Hin]. by apply Hw.
  - intros w Hw k c Hin. by apply elem_of_nil in Hin.
Qed.

(** X7: no notification other than the open notification of a connection,
    and no call of a public method, adds a pair to the registry or changes
    the handle of one: every pair of the registry after the step was there
    before (hooks that touch only the console). *)
Theorem registry_grows_only_on_open h st w :
  quiet_hooks h -> host_is_open st = false ->
  registry_within w (exec (step h st) w).
Proof.
  intros Hq Hst.
  pose proof (robust_registry_within w) as HP.
  assert (Hw : registry_within w w) by (by intros k c).
  revert Hw. generalize w at 2 4. set (P := registry_within w) in *.
  change (preserves P (step h st)).
  pose proof Hq as (Hq1 & Hq2 & Hq3 & Hq4 & Hq5 & Hq6).
  destruct st as [n| | |]; simpl step.
  - destruct n; try discriminate Hst; simpl.
    + by apply (hook_preserves P HP).
    + by apply (hook_preserves P HP).
    + by intros w1 Hw1.
    + apply preserves_bind; [by intros w1 Hw1|]. intros conn.
      apply (robust_conn _ HP), benign_add_on_open.
    + apply preserves_bind; [apply preserves_gets|]. intros ls.
      apply preserves_for_each. intros otherId. by apply (hook_preserves P HP).
    + apply preserves_bind; [apply (robust_conn _ HP), benign_with_open|]. intros _.
      apply preserves_bind; [apply preserves_gets|]. intros ls.
      apply preserves_for_each. intros otherId. by apply on_conn_close_preserves.
    + apply preserves_bind; [apply preserves_gets|]. intros ls.
      apply preserves_for_each. intros otherId. by apply (hook_preserves P HP).
  - apply preserves_bind; [by apply send_preserves|]. intros _. apply preserves_ret.
  - by apply close_preserves.
  - by apply closeAll_preserves.
Qed.

(** X7, on a world: closing BOBBOBBOBB in the crowd leaves only pairs that
    were there. *)
Lemma registry_grows_only_on_open_witness :
  registry_within Scenarios.crowd
    (exec (step base_hooks (CallClose (Some "BOBBOBBOBB"))) Scenarios.crowd).
Proof.
  apply (registry_grows_only_on_open base_hooks (CallClose (Some "BOBBOBBOBB"))
    Scenarios.crowd base_hooks_quiet).
  reflexivity.
Defined.

(** *** The signaling client over a run *)

Lemma on_conn_open_keeps h (P : State -> Prop) conn :
  quiet_hooks h -> robust P ->
  (forall k c, preserves P (with_others (map_set k c))) ->
  (forall c k, preserves P (update_conn c (add_on_close k))) ->
  preserves P (on_conn_open h conn).
Proof.
  intros Hq HP Hset Hadd. unfold on_conn_open.
  apply preserves_bind; [apply preserves_gets|]. intros [md|]; [|apply preserves_throw].
  apply preserves_bind; [apply preserves_gets|]. intros known.
  apply preserves_bind.
  { destruct known; [by apply close_preserves | apply preserves_ret]. }
  intros _. apply preserves_bind; [apply Hset|]. intros _.
  apply preserves_bind; [apply (robust_conn _ HP), benign_add_on_data|]. intros _.
  apply preserves_bind; [apply Hadd|]. intros _.
  apply preserves_bind; [apply (robust_conn _ HP), benign_add_on_error|]. intros _.
  apply (hook_preserves P HP), Hq.
Qed.

Lemma robust_peer_is p : robust (peer_is p : State -> Prop).
Proof.
  split.
  - intros w w' (_ & _ & Hp) Hw. unfold peer_is in *. congruence.
  - by intros c f _ w Hw.
  - by intros k w Hw.
  - by intros w Hw.
Qed.

Lemma reconnected_0 p : reconnected 0 p = p.
Proof. by destruct p. Qed.

Lemma reconnected_S n p : reconnected n (reconnected 1 p) = reconnected (S n) p.
Proof. unfold reconnected. simpl. f_equal. lia. Qed.

Lemma host_step_peer h st w :
  quiet_hooks h ->
  peer (exec (step h st) w) =
  if host_is_disconnected st then reconnected 1 (peer w) else peer w.
Proof.
  intros Hq.
  destruct (host_is_disconnected st) eqn:Hst.
  { destruct st as [[]| | |]; try discriminate Hst. reflexivity. }
  pose proof (robust_peer_is (peer w)) as HP.
  assert (Hkeep : preserves (peer_is (peer w)) (step h st)); [|by apply Hkeep].
  pose proof Hq as (Hq1 & Hq2 & Hq3 & Hq4 & Hq5 & Hq6).
  destruct st as [n| | |]; simpl step.
  - destruct n; try discriminate Hst; simpl.
    + by apply (hook_preserves _ HP).
    + by apply (hook_preserves _ HP).
    + apply preserves_bind; [by intros w1 Hw1|]. intros conn.
      apply (robust_conn _ HP), benign_add_on_open.
    + apply preserves_bind; [apply (robust_conn _ HP), benign_with_open|]. intros _.
      apply preserves_bind; [apply preserves_gets|]. intros ls.
      apply preserves_for_each. intros _.
      apply on_conn_open_keeps; [done | done | by intros k c w1 Hw1 | by intros c k w1 Hw1].
    + apply preserves_bind; [apply preserves_gets|]. intros ls.
      apply preserves_for_each. intros otherId. by apply (hook_preserves _ HP).
    + apply preserves_bind; [apply (robust_conn _ HP), benign_with_open|]. intros _.
      apply preserves_bind; [apply preserves_gets|]. intros ls.
      apply preserves_for_each. intros otherId. by apply on_conn_close_preserves.
    + apply preserves_bind; [apply preserves_gets|]. intros ls.
      apply preserves_for_each. intros otherId. by apply (hook_preserves _ HP).
  - apply preserves_bind; [by apply send_preserves|]. intros _. apply preserves_ret.
  - by apply close_preserves.
  - by apply closeAll_preserves.
Qed.

(** X8: over any run of notifications and calls the host keeps the
    address it registered under, never dials, and calls [reconnect()]
    exactly once for every signaling disconnection and at no other time
    (hooks that touch only the console). *)
Theorem host_peer_over_runs h sts w :
  quiet_hooks h ->
  peer (run h sts w) = reconnected (count host_is_disconnected sts) (peer w).
Proof.
  intros Hq. revert w. induction sts as [|st sts IH]; intros w.
  - simpl. by rewrite reconnected_0.
  - rewrite run_cons, IH, (host_step_peer h st w Hq). cbn [count].
    destruct (host_is_disconnected st); [apply reconnected_S | done].
Qed.

(** X8, on a run: two disconnections among other steps. *)
Lemma host_peer_over_runs_witness :
  peer_reconnect_calls (peer (run base_hooks
    (Notify PeerDisconnected :: Scenarios.crowd_steps ++
     [Notify PeerDisconnected; CallCloseAll]) Scenarios.fresh_host)) = 2 /\
  peer_id (peer (run base_hooks
    (Notify PeerDisconnected :: Scenarios.crowd_steps ++
     [Notify PeerDisconnected; CallCloseAll]) Scenarios.fresh_host)) =
    "JillBagHostADHLOS".
Proof.
  rewrite (host_peer_over_runs base_hooks
    (Notify PeerDisconnected :: Scenarios.crowd_steps ++
     [Notify PeerDisconnected; CallCloseAll]) Scenarios.fresh_host base_hooks_quiet).
  split; reflexivity.
Defined.

(** *** A connection that has not opened *)

Lemma inbound_lookup h md b w :
  conns (exec (notify h (PeerConnection md b)) w) !! length (conns w) =
  Some (add_on_open (fresh_conn md b)).
Proof.
  simpl. rewrite list_lookup_alter_eq.
  by rewrite (list_lookup_middle (conns w) [] (fresh_conn md b) (length (conns w))).
Qed.

(** X9: an inbound connection that has not opened is not trusted: when
    the client surfaces it, the registry and the console stay as they are
    and no hook is called, and as long as it has not opened, its data and
    error notifications change nothing and call no hook, whatever the
    hooks are. *)
Theorem inbound_not_trusted h md b w :
  let conn := length (conns w) in
  let w1 := exec (notify h (PeerConnection md b)) w in
  others w1 = others w /\
  console w1 = console w /\
  conns w1 = conns w ++ [add_on_open (fresh_conn md b)] /\
  (forall data, notify h (ConnData conn data) w1 = (Normal tt, w1)) /\
  (forall err, notify h (ConnError conn err) w1 = (Normal tt, w1)).
Proof.
  intros conn w1.
  pose proof (inbound_lookup h md b w) as Hlook. fold conn in Hlook. fold w1 in Hlook.
  split; [done|]. split; [done|]. split.
  - subst w1 conn. simpl.
    rewrite <- (Nat.add_0_r (length (conns w))).
    by rewrite (alter_app_r add_on_open (conns w) [fresh_conn md b] 0).
  - split.
    + intros data.
      change (notify h (ConnData conn data)) with
        (ls ← listeners conn_on_data conn;
         for_each (fun otherId => handleData h otherId data) ls).
      unfold listeners, gets. rewrite run_bind. cbv beta iota.
      by rewrite Hlook.
    + intros err.
      change (notify h (ConnError conn err)) with
        (ls ← listeners conn_on_error conn;
         for_each (fun otherId => handleError h otherId err) ls).
      unfold listeners, gets. rewrite run_bind. cbv beta iota.
      by rewrite Hlook.
Qed.

(** *** Listeners of registered connections *)

Lemma keeps_with_open b : keeps_listeners (with_open b).
Proof. by intros cn. Qed.
Lemma keeps_add_on_open : keeps_listeners add_on_open.
Proof. by intros cn. Qed.
Lemma keeps_add_sent d : keeps_listeners (add_sent d).
Proof. by intros cn. Qed.
Lemma keeps_add_close_call : keeps_listeners add_close_call.
Proof. by intros cn. Qed.

Section Sturdy.
Variable h : Hooks.
Hypothesis Hq : quiet_hooks h.
Variable P : State -> Prop.
Hypothesis HP : sturdy P.

Ltac keep :=
  repeat lazymatch goal with
  | |- preserves _ (mbind _ _) => apply preserves_bind; [|intros ?]
  | |- preserves _ (mret _) => apply preserves_ret
  | |- preserves _ (gets _) => apply preserves_gets
  | |- preserves _ (throw _) => apply preserves_throw
  | |- preserves _ (try_catch _) => apply preserves_try_catch
  | |- preserves _ (for_each _ _) => apply preserves_for_each; intros ?
  | |- preserves _ (with_others (map_delete _)) => apply (sturdy_delete P HP)
  | |- preserves _ (with_others map_clear) => apply (sturdy_clear P HP)
  | |- preserves _ (update_conn _ _) => apply (sturdy_conn P HP); by intros ?
  end.

Lemma sturdy_hook {A} (m : M State A) : quiet m -> preserves P m.
Proof. apply quiet_preserves, HP. Qed.

Lemma sturdy_on_conn_close otherId : preserves P (on_conn_close h otherId).
Proof. unfold on_conn_close. keep. apply sturdy_hook, Hq. Qed.

Lemma sturdy_conn_close c : preserves P (conn_close (on_conn_close h) c).
Proof.
  unfold conn_close. keep. destruct a as [cn|]; keep.
  destruct (close_mode (conn_behaviour cn)); keep.
  destruct (conn_open cn); keep.
  apply sturdy_on_conn_close.
Qed.

Lemma sturdy_close otherId : preserves P (close h otherId).
Proof.
  unfold close. keep. destruct a as [c|]; keep. apply sturdy_conn_close.
Qed.

Lemma sturdy_closeAll_visit entry : preserves P (closeAll_visit h entry).
Proof.
  unfold closeAll_visit. keep. destruct a as [c|]; keep. apply sturdy_conn_close.
Qed.

Lemma sturdy_closeAll : preserves P (closeAll h).
Proof. unfold closeAll. keep. apply sturdy_closeAll_visit. Qed.

Lemma sturdy_conn_send c d : preserves P (conn_send c d : M State unit).
Proof.
  unfold conn_send. keep. destruct a as [cn|]; keep.
  destruct (send_raises (conn_behaviour cn) d); keep.
Qed.

Lemma sturdy_send otherId d : preserves P (send otherId d).
Proof.
  unfold send. keep. destruct (negb a0); keep.
  - apply sturdy_hook, quiet_console_warn.
  - destruct a as [c|]; keep. apply sturdy_conn_send.
Qed.

End Sturdy.

Lemma keeps_declared f cn : keeps_listeners f -> declared (f cn) = declared cn.
Proof. intros Hf. unfold declared. by destruct (Hf cn) as [-> _]. Qed.

Lemma sturdy_wired : sturdy wired.
Proof.
  split.
  - intros w w' (Ht & Hc & _) [H1 H2].
    split; unfold others in *; rewrite ?Ht, ?Hc; done.
  - intros c f Hf w [H1 H2]. split; simpl.
    + intros k c0 Hin. destruct (H1 k c0 Hin) as (cn & Hcn & Hd & Hcl & He).
      destruct (lookup_alter_fwd f c c0 _ _ Hcn) as (y & Hy & Hcase).
      exists y. split; [exact Hy|].
      destruct Hcase as [->|[_ ->]]; [done|].
      destruct (Hf cn) as (_ & -> & -> & ->). done.
    + intros c0 cn' k Hcn' Hk.
      destruct (lookup_alter_inv f c c0 _ _ Hcn') as (x & Hx & [->|[_ ->]]).
      * by eapply H2.
      * rewrite keeps_declared by done. eapply H2; [exact Hx|].
        destruct (Hf x) as (_ & Hd & Hcl & He). by rewrite Hd, Hcl, He in Hk.
  - intros k w [H1 H2]. split; simpl; [|exact H2].
    intros k' c Hin. apply elem_of_map_delete in Hin as [_ Hin]. by apply H1.
  - intros w [H1 H2]. split; simpl; [|exact H2].
    intros k' c Hin. by apply elem_of_nil in Hin.
Qed.

Lemma sturdy_has_metadata conn md : sturdy (has_metadata conn md).
Proof.
  split.
  - intros w w' (_ & Hc & _) (cn & Hcn & Hmd). exists cn. by rewrite Hc.
  - intros c f Hf w (cn & Hcn & Hmd).
    destruct (lookup_alter_fwd f c conn _ _ Hcn) as (y & Hy & Hcase).
    exists y. split; [exact Hy|].
    destruct Hcase as [->|[_ ->]]; [done|]. by destruct (Hf cn) as [-> _].
  - by intros k w.
  - by intros w.
Qed.

Lemma sturdy_wiring conn md : sturdy (wiring conn md).
Proof.
  destruct sturdy_wired as [P1 P2 P3 P4].
  destruct (sturdy_has_metadata conn md) as [Q1 Q2 Q3 Q4]. split.
  - intros w w' Hw [? ?]. split; [by apply (P1 w) | by apply (Q1 w)].
  - intros c f Hf w [? ?]. split; [by apply P2 | by apply Q2].
  - intros k w [? ?]. split; [by apply P3 | by apply Q3].
  - intros w [? ?]. split; [by apply P4 | by apply Q4].
Qed.

Lemma elem_of_map_set_weak {V} (k k' : Ident) (v v' : V) (m : Map Ident V) :
  (k', v') ∈ map_set k v m -> (k' = k /\ v' = v) \/ (k', v') ∈ m.
Proof.
  induction m as [|[k0 v0] m IH]; simpl.
  - intros Hin. apply list_elem_of_singleton in Hin. left. by inversion Hin.
  - destruct (decide (k0 = k)) as [->|Hne]; rewrite !elem_of_cons.
    + intros [[= -> ->]|Hin]; [by left | by right; right].
    + intros [[= -> ->]|Hin]; [by right; left|].
      destruct (IH Hin) as [?|?]; [by left | by right; right].
Qed.

(** The registration steps of the open listener. *)
Lemma wiring_register conn md (w : State) :
  wiring conn md w ->
  wiring conn md
    (set_conns (alter (host_listeners (md !! "id")) conn)
       (exec (with_others (map_set (md !! "id") conn)) w)).
Proof.
  intros [[H1 H2] (cn & Hcn & Hmd)].
  assert (Hd : declared cn = Some (md !! "id")) by (unfold declared; by rewrite Hmd).
  split; [split|]; simpl.
  - intros k c Hin. apply elem_of_map_set_weak in Hin as [[-> ->]|Hin].
    + exists (host_listeners (md !! "id") cn). rewrite list_lookup_alter_eq, Hcn.
      split; [done|]. simpl.
      split; [|split]; apply elem_of_app; right; apply list_elem_of_here.
    + destruct (H1 k c Hin) as (cn' & Hcn' & Hda & Hcl & He).
      destruct (lookup_alter_fwd (host_listeners (md !! "id")) conn c _ _ Hcn')
        as (y & Hy & Hcase).
      exists y. split; [exact Hy|].
      destruct Hcase as [->|[_ ->]]; [done|]. simpl.
      split; [|split]; apply elem_of_app; by left.
  - intros c cn' k Hcn' Hk.
    destruct (lookup_alter_inv (host_listeners (md !! "id")) conn c _ _ Hcn')
      as (x & Hx & [->|[-> ->]]); [by eapply H2|].
    pose proof (eq_trans (eq_sym Hx) Hcn) as [= ->].
    change (declared (host_listeners (md !! "id") cn)) with (declared cn).
    simpl in Hk. rewrite !elem_of_app, !list_elem_of_singleton in Hk.
    destruct Hk as [[Hk | ->] | [[Hk | ->] | [Hk | ->]]]; try done.
    + apply (H2 conn cn k Hcn). by left.
    + apply (H2 conn cn k Hcn). by right; left.
    + apply (H2 conn cn k Hcn). by right; right.
  - exists (host_listeners (md !! "id") cn). simpl.
    by rewrite list_lookup_alter_eq, Hcn.
Qed.

Section Wired.
Variable h : Hooks.
Hypothesis Hq : quiet_hooks h.

Lemma on_conn_open_wired conn : preserves wired (on_conn_open h conn).
Proof.
  intros w Hw. unfold on_conn_open. rewrite exec_gets_bind.
  destruct (conns w !! conn) as [cn|] eqn:Hcn; [|done].
  destruct (conn_metadata cn) as [md|] eqn:Hmd; [|done].
  pose proof (sturdy_wiring conn md) as HP.
  assert (Hgoal : preserves (wiring conn md)
    (known ← gets (fun w => map_has (md !! "id") (others w));
     (if (known : bool) then close h (md !! "id") else mret tt);;
     with_others (map_set (md !! "id") conn);;
     conn_on_data_add conn (md !! "id");;
     conn_on_close_add conn (md !! "id");;
     conn_on_error_add conn (md !! "id");;
     handleOpen h (md !! "id"))).
  { apply preserves_bind; [apply preserves_gets|]. intros known.
    apply preserves_bind.
    { destruct known; [by apply sturdy_close | apply preserves_ret]. }
    intros _ w1 Hw1.
    unfold with_others, conn_on_data_add, conn_on_close_add, conn_on_error_add,
      update_conn.
    rewrite !exec_modify_bind.
    apply (sturdy_hook (wiring conn md) HP); [apply Hq|].
    pose proof (wiring_register conn md w1 Hw1) as Hreg.
    unfold set_conns at 1 2 3. simpl conns. rewrite !list_alter_alter_eq.
    exact Hreg. }
  apply Hgoal. split; [done|]. by exists cn.
Qed.

Lemma notify_wired n : preserves wired (notify h n).
Proof.
  pose proof sturdy_wired as HP.
  destruct Hq as (Hq1 & Hq2 & Hq3 & Hq4 & Hq5 & Hq6).
  destruct n; simpl.
  - by apply (sturdy_hook _ HP).
  - by apply (sturdy_hook _ HP).
  - by intros w [H1 H2].
  - apply preserves_bind; [|intros conn; apply (sturdy_conn _ HP), keeps_add_on_open].
    intros w [H1 H2]. split; simpl.
    + intros k c Hin. destruct (H1 k c Hin) as (cn & Hcn & Hrest).
      exists cn. split; [|done]. by apply lookup_app_l_Some.
    + intros c cn k [Hcn|[_ Hcn]]%lookup_app_Some Hk; [by eapply H2|].
      apply list_lookup_singleton_Some in Hcn as [_ <-]. simpl in Hk.
      destruct Hk as [Hk|[Hk|Hk]]; by apply elem_of_nil in Hk.
  - apply preserves_bind; [apply (sturdy_conn _ HP), keeps_with_open|]. intros _.
    apply preserves_bind; [apply preserves_gets|]. intros ls.
    apply preserves_for_each. intros _. apply on_conn_open_wired.
  - apply preserves_bind; [apply preserves_gets|]. intros ls.
    apply preserves_for_each. intros otherId. by apply (sturdy_hook _ HP).
  - apply preserves_bind; [apply (sturdy_conn _ HP), keeps_with_open|]. intros _.
    apply preserves_bind; [apply preserves_gets|]. intros ls.
    apply preserves_for_each. intros otherId. by apply sturdy_on_conn_close.
  - apply preserves_bind; [apply preserves_gets|]. intros ls.
    apply preserves_for_each. intros otherId. by apply (sturdy_hook _ HP).
Qed.

Lemma run_wired sts w : wired w -> wired (run h sts w).
Proof.
  pose proof sturdy_wired as HP.
  revert w. induction sts as [|st sts IH]; intros w Hw; [done|].
  rewrite run_cons. apply IH. destruct st; simpl step.
  - by apply notify_wired.
  - revert Hw. apply preserves_bind; [by apply sturdy_send|].
    intros _. apply preserves_ret.
  - by apply sturdy_close.
  - by apply sturdy_closeAll.
Qed.

End Wired.

Lemma constructor_wired random dialed : wired (constructor random dialed).
Proof.
  split; simpl.
  - intros k c Hin. by apply elem_of_nil in Hin.
  - intros c cn k Hcn. by rewrite lookup_nil in Hcn.
Qed.

Lemma close_listeners_remove h k ls w :
  quiet_hooks h -> ls <> [] -> (forall k', k' ∈ ls -> k' = k) ->
  others (exec (for_each (on_conn_close h) ls) w) = map_delete k (others w).
Proof.
  intros Hq Hne Hls. destruct ls as [|k0 ls]; [done|].
  assert (k0 = k) as -> by apply Hls, list_elem_of_here.
  rewrite for_each_cons.
  destruct (on_conn_close_effect h Hq k w) as (Ho & _).
  unfold exec in *. rewrite run_bind.
  destruct (on_conn_close h k w) as [[[]|e] w1]; simpl in *; [|done].
  destruct (close_listeners_effect h Hq k ls w1) as ([Ho1|Ho1] & _).
  { intros k' Hk'. apply Hls. by apply list_elem_of_further. }
  - unfold exec in Ho1. by rewrite Ho1.
  - unfold exec in Ho1. by rewrite Ho1, Ho, map_delete_idem.
Qed.

(** X10: in every world a host can reach, the close notification of a
    connection that is registered removes the pair of that connection and
    no other: the identity is no longer registered and every other
    identity is registered as before (hooks that touch only the
    console). *)
Theorem registered_close_removes h random dialed sts k c :
  quiet_hooks h ->
  let w := run h sts (constructor random dialed) in
  (k, c) ∈ others w ->
  let w' := exec (notify h (ConnClose c)) w in
  others w' = map_delete k (others w) /\
  map_get k (others w') = None /\
  (forall k', k' <> k -> map_get k' (others w') = map_get k' (others w)).
Proof.
  intros Hq w Hin w'.
  assert (Hw : wired w) by apply (run_wired h Hq), constructor_wired.
  destruct (wired_entry w Hw k c Hin) as (cn & Hcn & _ & Hcl & _).
  assert (Hd : declared cn = Some k).
  { apply (wired_tags w Hw c cn k Hcn). by right; left. }
  assert (Hls : forall k', k' ∈ conn_on_close cn -> k' = k).
  { intros k' Hk'.
    assert (declared cn = Some k') by (apply (wired_tags w Hw c cn k' Hcn); by right; left).
    congruence. }
  assert (Hne : conn_on_close cn <> []).
  { intros Hnil. rewrite Hnil in Hcl. by apply elem_of_nil in Hcl. }
  assert (Ho : others w' = map_delete k (others w)).
  { subst w'.
    change (notify h (ConnClose c)) with
      (update_conn c (with_open false);;
       ls ← listeners conn_on_close c;
       for_each (on_conn_close h) ls).
    unfold update_conn at 1. rewrite exec_modify_bind.
    unfold listeners. rewrite exec_gets_bind. simpl conns.
    rewrite list_lookup_alter_eq, Hcn. simpl.
    by rewrite (close_listeners_remove h k (conn_on_close cn) _ Hq Hne Hls). }
  split; [exact Ho|]. rewrite Ho. split.
  - apply map_get_delete_eq.
  - intros k' Hk'. by apply map_get_delete_ne.
Qed.

(** X10, on a world: the connection of BOBBOBBOBB closes in the crowd. *)
Lemma registered_close_removes_witness :
  others (exec (notify base_hooks (ConnClose 1)) Scenarios.crowd) =
  [(Scenarios.alice, 0)].
Proof.
  destruct (registered_close_removes base_hooks Scenarios.sevenths
    (fun _ => Scenarios.plain CloseDeferred) Scenarios.crowd_steps
    (Some "BOBBOBBOBB") 1 base_hooks_quiet) as (Ho & _).
  - vm_compute. apply list_elem_of_further, list_elem_of_here.
  - exact Ho.
Defined.

(** X11: in every world a host can reach, a registered connection carries
    a data, a close and an error listener for the identity it is
    registered under, and every listener of every connection captured the
    identity that connection declared in its metadata: what a connection
    sends, and its closing and its errors, reach the hooks under the
    identity it declared when it opened (hooks that touch only the
    console). *)
Theorem listeners_tagged h random dialed sts :
  quiet_hooks h ->
  let w := run h sts (constructor random dialed) in
  (forall k c, (k, c) ∈ others w ->
     exists cn, conns w !! c = Some cn /\ declared cn = Some k /\
       k ∈ conn_on_data cn /\ k ∈ conn_on_close cn /\ k ∈ conn_on_error cn) /\
  (forall c cn k, conns w !! c = Some cn ->
     k ∈ conn_on_data cn ++ conn_on_close cn ++ conn_on_error cn ->
     declared cn = Some k).
Proof.
  intros Hq w.
  assert (Hw : wired w) by apply (run_wired h Hq), constructor_wired.
  split.
  - intros k c Hin. destruct (wired_entry w Hw k c Hin) as (cn & Hcn & Hd & Hcl & He).
    exists cn. split; [done|]. split; [|done].
    apply (wired_tags w Hw c cn k Hcn). by left.
  - intros c cn k Hcn Hk. apply (wired_tags w Hw c cn k Hcn).
    rewrite !elem_of_app in Hk. tauto.
Qed.

(** X11, on a world: the connection of BOBBOBBOBB in the crowd. *)
Lemma listeners_tagged_witness :
  exists cn, conns Scenarios.crowd !! 1 = Some cn /\
    declared cn = Some (Some "BOBBOBBOBB") /\
    Some "BOBBOBBOBB" ∈ conn_on_data cn /\
    Some "BOBBOBBOBB" ∈ conn_on_close cn /\
    Some "BOBBOBBOBB" ∈ conn_on_error cn.
Proof.
  destruct (listeners_tagged base_hooks Scenarios.sevenths
    (fun _ => Scenarios.plain CloseDeferred) Scenarios.crowd_steps base_hooks_quiet)
    as [Hreg _].
  apply (Hreg (Some "BOBBOBBOBB") 1).
  vm_compute. apply list_elem_of_further, list_elem_of_here.
Defined.

End HostMore.

(* ===================================================================== *)
(** ** The player: further properties                                    *)
(* ===================================================================== *)

Module PlayerMore.
Import JS Transport Props Naming JillBagPlayer PlayerProps MoreProps RunFacts PlayerFacts.

Lemma player_run_cons h st sts w :
  run h (st :: sts) w = run h sts (exec (step h st) w).
Proof. reflexivity. Qed.

(** *** [sendHost] *)

Lemma sendHost_connected data c w :
  slot w = Some c -> conn_is_open c w = true ->
  sendHost data w =
  if send_fails c data w then (Throw (Raised "send"), w)
  else (Normal true, set_conns (alter (add_sent data) c) w).
Proof.
  intros Hslot Hopen.
  unfold sendHost, not_connected, conn_send, send_fails, update_conn, modify,
    mbind, M_bind, bind, gets.
  rewrite Hslot, Hopen. simpl. rewrite Hslot. unfold conn_is_open in Hopen.
  destruct (conns w !! c) as [cn|]; [|done].
  by destruct (send_raises (conn_behaviour cn) data).
Qed.

(** X12: [sendHost] returns [false] and touches nothing but the console
    when [_conn] is [null] or holds a connection that is not open;
    otherwise it hands [data] unchanged to the connection in [_conn] and
    returns [true], leaving [_conn] and every other connection as they
    were; the one way it throws is that the connection's [send] raises on
    [data], and then nothing has changed. *)
Theorem sendHost_contract data w :
  (not_connected w = true ->
   result (sendHost data) w = Normal false /\
   same_model w (exec (sendHost data) w)) /\
  (forall c, slot w = Some c -> conn_is_open c w = true ->
   send_fails c data w = false ->
   result (sendHost data) w = Normal true /\
   sent c (exec (sendHost data) w) = sent c w ++ [data] /\
   slot (exec (sendHost data) w) = Some c /\
   (forall c', c' <> c ->
      conns (exec (sendHost data) w) !! c' = conns w !! c')) /\
  (forall e, result (sendHost data) w = Throw e ->
   exec (sendHost data) w = w /\
   exists c, slot w = Some c /\ conn_is_open c w = true /\
             send_fails c data w = true).
Proof.
  split; [|split].
  - intros Hidle. unfold result, exec. by rewrite sendHost_not_connected.
  - intros c Hslot Hopen Hok. unfold result, exec.
    rewrite (sendHost_connected _ c), Hok by done. cbn [fst snd].
    split; [done|]. split; [|split; [done|]].
    + unfold sent. simpl. rewrite list_lookup_alter_eq.
      unfold conn_is_open in Hopen. by destruct (conns w !! c).
    + intros c' Hne. by apply list_lookup_alter_ne.
  - intros e. unfold result, exec.
    destruct (not_connected w) eqn:Hidle.
    + by rewrite sendHost_not_connected.
    + unfold not_connected in Hidle.
      destruct (slot w) as [c|] eqn:Hslot; [|done].
      apply negb_false_iff in Hidle. rewrite (sendHost_connected _ c) by done.
      destruct (send_fails c data w) eqn:Hf; [|done].
      intros _. split; [done|]. by exists c.
Qed.

(** X12, on worlds: a fresh player is not connected; a player that has
    joined hands the payload to its connection. *)
Lemma sendHost_contract_witness :
  result (sendHost PNull) Scenarios.fresh_player = Normal false /\
  sent 0 (exec (sendHost (PString "move")) Scenarios.joined) = [PString "move"].
Proof.
  pose proof (sendHost_contract PNull Scenarios.fresh_player) as (Hno & _ & _).
  pose proof (sendHost_contract (PString "move") Scenarios.joined) as (_ & Hyes & _).
  split.
  - destruct Hno as [Hfalse _]; [vm_compute; reflexivity|]. exact Hfalse.
  - destruct (Hyes 0) as (_ & Hsent & _); [vm_compute; reflexivity ..|].
    exact Hsent.
Defined.

(** *** [closeHost] *)

Lemma closeHost_run h w :
  closeHost h w =
  (Normal tt,
   exec (set_conn None)
     (match slot w with
      | Some c => exec (conn_close (on_conn_close h) c) w
      | None => w
      end)).
Proof.
  unfold closeHost. rewrite run_bind. simpl.
  by destruct (slot w).
Qed.

Lemma clear_empty_slot (w : State) : slot w = None -> exec (set_conn None) w = w.
Proof.
  intros Hslot. destruct w as [[room pid cur] cs p out]. unfold slot in Hslot.
  simpl in Hslot. unfold exec, set_conn, modify, set_this. simpl. by subst.
Qed.

Lemma player_close_listeners_frame h ls w :
  quiet_hooks h ->
  conns (exec (for_each (on_conn_close h) ls) w) = conns w.
Proof.
  intros Hq.
  apply (preserves_for_each (fun w' => conns w' = conns w)); [|done].
  intros u w1 Hw1. unfold on_conn_close, set_conn. rewrite exec_modify_bind.
  destruct Hq as (_ & _ & _ & _ & Hclose & _).
  match goal with |- conns (exec _ ?w0) = _ =>
    destruct (Hclose w0) as (_ & Hc & _); rewrite Hc end.
  exact Hw1.
Qed.

Lemma player_conn_close_conns h c cn w :
  quiet_hooks h -> conns w !! c = Some cn ->
  exists g, counts_close g /\
    conns (exec (conn_close (on_conn_close h) c) w) = alter g c (conns w).
Proof.
  intros Hq Hcn. unfold conn_close. rewrite exec_gets_bind, Hcn.
  cbv beta iota zeta. unfold update_conn. rewrite exec_modify_bind.
  destruct (close_mode (conn_behaviour cn)).
  - exists add_close_call. by split.
  - destruct (conn_open cn).
    + rewrite exec_modify_bind, player_close_listeners_frame by done.
      exists (with_open false ∘ add_close_call). split; [done|].
      simpl. by rewrite list_alter_alter_eq.
    + exists add_close_call. by split.
  - exists add_close_call. by split.
Qed.

(** X13: [closeHost()] is total and idempotent.  It never throws; after
    it [_conn] is [null] and [sendHost] returns [false]; a second call
    changes nothing; with [_conn] already [null] it changes nothing at
    all; and when [_conn] held a connection, [close()] was called once on
    it, also when that call raised (hooks that touch only the console). *)
Theorem closeHost_idempotent_total h w :
  returns (closeHost h) w /\
  slot (exec (closeHost h) w) = None /\
  (forall data, result (sendHost data) (exec (closeHost h) w) = Normal false) /\
  exec (closeHost h) (exec (closeHost h) w) = exec (closeHost h) w /\
  (slot w = None -> exec (closeHost h) w = w) /\
  (quiet_hooks h ->
   forall c, slot w = Some c -> is_Some (conns w !! c) ->
   close_calls c (exec (closeHost h) w) = S (close_calls c w)).
Proof.
  assert (Hempty : forall w0, slot w0 = None -> exec (closeHost h) w0 = w0).
  { intros w0 Hslot. unfold exec. rewrite closeHost_run, Hslot. simpl.
    by apply clear_empty_slot. }
  assert (Hcleared : slot (exec (closeHost h) w) = None).
  { unfold exec. by rewrite closeHost_run. }
  split; [|split; [done|split; [|split; [|split; [apply Hempty|]]]]].
  - exists tt. unfold result. by rewrite closeHost_run.
  - intros data. unfold result. rewrite sendHost_not_connected; [done|].
    unfold not_connected. by rewrite Hcleared.
  - by apply Hempty.
  - intros Hq c Hslot [cn Hcn].
    destruct (player_conn_close_conns h c cn w Hq Hcn) as (g & Hg & Hc).
    unfold exec at 1. rewrite closeHost_run, Hslot.
    unfold close_calls. simpl conns. rewrite Hc, list_lookup_alter_eq, Hcn. simpl.
    apply Hg.
Qed.

(** X13, on a world: a player that has joined hangs up. *)
Lemma closeHost_idempotent_total_witness :
  slot Scenarios.joined = Some 0 /\
  result (closeHost base_hooks) Scenarios.joined = Normal tt /\
  close_calls 0 (exec (closeHost base_hooks) Scenarios.joined) = 1 /\
  exec (closeHost base_hooks) Scenarios.fresh_player = Scenarios.fresh_player.
Proof.
  destruct (closeHost_idempotent_total base_hooks Scenarios.joined)
    as ([[] Hret] & _ & _ & _ & _ & Hcalls).
  destruct (closeHost_idempotent_total base_hooks Scenarios.fresh_player)
    as (_ & _ & _ & _ & Hnoop & _).
  split; [vm_compute; reflexivity|]. split; [exact Hret|]. split.
  - apply (Hcalls player_base_hooks_quiet 0); vm_compute; [reflexivity | eauto].
  - apply Hnoop. vm_compute. reflexivity.
Defined.

(** *** The open notification *)

Lemma player_ConnOpen_run h conn cn w :
  conns w !! conn = Some cn -> conn_on_open cn = [()] ->
  notify h (ConnOpen conn) w =
  (on_conn_open h ≫= fun _ => mret tt)
    (exec (update_conn conn (with_open true)) w).
Proof.
  intros Hcn Hls.
  change (notify h (ConnOpen conn)) with
    (update_conn conn (with_open true);;
     ls ← listeners conn_on_open conn;
     for_each (fun _ => on_conn_open h) ls).
  unfold update_conn at 1. rewrite run_bind. simpl.
  unfold listeners. rewrite run_bind. simpl.
  rewrite list_lookup_alter_eq, Hcn. simpl. by rewrite Hls.
Qed.

(** X14: when a connection opens while [_conn] is [null] (the player hung
    up before the connection opened), the open listener throws a
    [TypeError] on [this._conn.on]: no listener is registered and no hook
    is called; the world is as the client left it when it marked the
    connection open. *)
Theorem open_with_empty_slot h conn cn w :
  conns w !! conn = Some cn -> conn_on_open cn = [()] -> slot w = None ->
  notify h (ConnOpen conn) w =
  (Throw (TypeError "Cannot read properties of null (reading 'on')"),
   exec (update_conn conn (with_open true)) w).
Proof.
  intros Hcn Hls Hslot. rewrite (player_ConnOpen_run h conn cn w Hcn Hls).
  unfold on_conn_open, on_current, mbind, M_bind, bind, gets, exec, update_conn,
    modify, slot in *.
  simpl. by rewrite Hslot.
Qed.

(** X14, on a world: the player dials, hangs up, and the connection opens
    all the same. *)
Lemma open_with_empty_slot_witness :
  slot hung_up_early = None /\
  result (notify base_hooks (ConnOpen 0)) hung_up_early =
    Throw (TypeError "Cannot read properties of null (reading 'on')").
Proof.
  split; [vm_compute; reflexivity|]. unfold result.
  rewrite (open_with_empty_slot base_hooks 0
    (add_close_call (add_on_open (fresh_conn
       (Some {[ "id" := "ADHLOSWADH" ]}) (Scenarios.plain CloseDeferred))))
    hung_up_early); [reflexivity | vm_compute; reflexivity ..].
Defined.

Lemma on_conn_open_slot h conn c w :
  slot w = Some c ->
  on_conn_open h (exec (update_conn conn (with_open true)) w) =
  handleOpen h (player_opened conn c w).
Proof.
  intros Hslot.
  unfold on_conn_open, on_current, conn_on_data_add, conn_on_close_add,
    conn_on_error_add, update_conn, mbind, M_bind, bind, gets, modify, exec.
  unfold slot in *. simpl. repeat (rewrite Hslot; simpl).
  f_equal. unfold player_opened, player_listeners, set_conns, exec, update_conn, modify.
  cbn [conns this peer console fst snd]. f_equal.
  by rewrite !list_alter_alter_eq.
Qed.

(** X15: when a connection opens while [_conn] holds a handle, the data,
    close and error listeners are registered on the connection in [_conn]
    and the open hook is called once, last.  If [_conn] holds the
    connection that opened, [sendHost] then returns [true] and hands the
    payload to it, if the connection accepts it.  If [_conn] holds another
    connection (the player dialled twice), the connection that opened gets
    no listener: the listeners go to the other one. *)
Theorem player_open_wires_slot h conn cn c w :
  conns w !! conn = Some cn -> conn_on_open cn = [()] -> slot w = Some c ->
  let w1 := player_opened conn c w in
  exec (notify h (ConnOpen conn)) w = exec (handleOpen h) w1 /\
  slot w1 = Some c /\
  (c = conn ->
   conn_is_open conn w1 = true /\
   forall data, send_fails conn data w = false ->
     result (sendHost data) w1 = Normal true /\
     sent conn (exec (sendHost data) w1) = sent conn w ++ [data]) /\
  (c <> conn ->
   conns w1 !! conn = Some (with_open true cn) /\
   forall cc, conns w !! c = Some cc -> conns w1 !! c = Some (player_listeners cc)).
Proof.
  intros Hcn Hls Hslot w1.
  split; [|split; [done|split]].
  - unfold exec at 1. rewrite (player_ConnOpen_run h conn cn w Hcn Hls).
    rewrite run_bind, (on_conn_open_slot h conn c w Hslot). fold w1.
    unfold exec. by destruct (handleOpen h w1) as [[[]|e] w2].
  - intros ->.
    assert (Hlook : conns w1 !! conn = Some (player_listeners (with_open true cn))).
    { unfold w1, player_opened. simpl.
      by rewrite !list_lookup_alter_eq, Hcn. }
    assert (Hopen : conn_is_open conn w1 = true).
    { unfold conn_is_open. by rewrite Hlook. }
    split; [done|]. intros data Hok.
    assert (Hok1 : send_fails conn data w1 = false).
    { unfold send_fails in *. rewrite Hlook. by rewrite Hcn in Hok. }
    unfold result, exec. rewrite (sendHost_connected _ conn), Hok1 by done.
    split; [done|]. cbn [snd]. unfold sent. simpl conns.
    by rewrite !list_lookup_alter_eq, Hcn.
  - intros Hne. unfold w1, player_opened. simpl. split.
    + rewrite list_lookup_alter_ne by done. by rewrite list_lookup_alter_eq, Hcn.
    + intros cc Hcc. rewrite list_lookup_alter_eq.
      rewrite list_lookup_alter_ne by done. by rewrite Hcc.
Qed.

(** X15, on worlds: the connection of a player that dialled once opens,
    and the first connection of a player that dialled twice opens. *)
Lemma player_open_wires_slot_witness :
  result (sendHost (PString "hello"))
    (player_opened 0 0
       (run base_hooks [Notify (PeerOpen "JillBagPlayerADHLOSWADH")]
          Scenarios.fresh_player)) = Normal true /\
  (conn_on_close <$> conns (player_opened 0 1 dialled_twice) !! 0) = Some [] /\
  (conn_on_close <$> conns (player_opened 0 1 dialled_twice) !! 1) = Some [()].
Proof.
  destruct (player_open_wires_slot base_hooks 0
    (add_on_open (fresh_conn (Some {[ "id" := "ADHLOSWADH" ]})
       (Scenarios.plain CloseDeferred))) 0
    (run base_hooks [Notify (PeerOpen "JillBagPlayerADHLOSWADH")]
       Scenarios.fresh_player))
    as (_ & _ & Hsame & _); [vm_compute; reflexivity ..|].
  destruct (Hsame eq_refl) as [_ Hsend].
  destruct (Hsend (PString "hello")) as [Hres _]; [vm_compute; reflexivity|].
  destruct (player_open_wires_slot base_hooks 0
    (add_on_open (fresh_conn (Some {[ "id" := "ADHLOSWADH" ]})
       (Scenarios.plain CloseDeferred))) 1 dialled_twice)
    as (_ & _ & _ & Hother); [vm_compute; reflexivity ..|].
  destruct Hother as [Hconn Hslot]; [done|].
  split; [exact Hres|]. split.
  - by rewrite Hconn.
  - rewrite (Hslot (add_on_open (fresh_conn (Some {[ "id" := "ADHLOSWADH" ]})
      (Scenarios.plain CloseDeferred)))); [reflexivity | vm_compute; reflexivity].
Defined.

(** *** Dialling *)

Lemma alter_last {A} (f : A -> A) (l : list A) (x : A) :
  alter f (length l) (l ++ [x]) = l ++ [f x].
Proof.
  rewrite <- (Nat.add_0_r (length l)).
  by rewrite (alter_app_r f l [x] 0).
Qed.

Lemma connectToHost_run w : _connectToHost w = (Normal tt, player_dialled w).
Proof.
  unfold _connectToHost, on_current, conn_on_open_add, update_conn, set_conn,
    peer_connect, mbind, M_bind, bind, gets, modify, slot.
  simpl. unfold player_dialled, set_conns, attempt, dialled. simpl.
  by rewrite alter_last.
Qed.

Lemma player_PeerOpen_run h myId w :
  notify h (PeerOpen myId) w =
  handlePeerReady h myId (if not_connected w then player_dialled w else w).
Proof.
  change (notify h (PeerOpen myId)) with
    (idle ← gets not_connected;
     (if (idle : bool) then _connectToHost else mret tt);;
     handlePeerReady h myId).
  unfold gets at 1. rewrite run_bind. cbv beta iota.
  destruct (not_connected w); rewrite run_bind.
  - by rewrite connectToHost_run.
  - done.
Qed.

(** X16: when signaling becomes ready, the ready hook is called once,
    last; if [_conn] held an open connection, nothing happened before; if
    not, the player dialled before: [_conn] holds a new connection object,
    not open, that declares the player's identity and has the open
    listener and no other; the connection objects there were are as they
    were (one that [_conn] held is not closed and keeps its listeners);
    and [sendHost] returns [false] in that world. *)
Theorem ready_dials h myId w :
  let w1 := player_dialled w in
  let c := length (conns w) in
  notify h (PeerOpen myId) w =
    handlePeerReady h myId (if not_connected w then w1 else w) /\
  slot w1 = Some c /\
  conns w1 !! c =
    Some (add_on_open (fresh_conn (Some {[ "id" := _playerId (this w) ]})
            (peer_dialed (peer w) c))) /\
  (forall c0, c0 <> c -> conns w1 !! c0 = conns w !! c0) /\
  connect_calls w1 = connect_calls w ++ [attempt w] /\
  forall data, sendHost data w1 =
    (Normal false, exec (console_warn "No open connection to host.") w1).
Proof.
  intros w1 c.
  assert (Hnew : conns w1 !! c =
    Some (add_on_open (fresh_conn (Some {[ "id" := _playerId (this w) ]})
            (peer_dialed (peer w) c)))).
  { unfold w1, player_dialled, c. cbn [conns].
    by rewrite (list_lookup_middle (conns w) [] _ (length (conns w))). }
  split; [apply player_PeerOpen_run|]. split; [done|]. split; [exact Hnew|].
  split; [|split; [done|]].
  - intros c0 Hne. unfold w1, player_dialled. cbn [conns].
    destruct (decide (c0 < length (conns w))) as [Hlt|Hge].
    + by rewrite lookup_app_l.
    + rewrite lookup_ge_None_2 by (rewrite length_app; simpl; unfold c in Hne; lia).
      symmetry. apply lookup_ge_None_2. lia.
  - intros data. apply sendHost_not_connected.
    unfold not_connected. change (slot w1) with (Some c). cbv beta iota.
    unfold conn_is_open. by rewrite Hnew.
Qed.

(** *** What every step of the player keeps *)

Section Steady.
Variable h : Hooks.
Hypothesis Hq : quiet_hooks h.
Variable P : State -> Prop.
Hypothesis HP : steady P.

Ltac keep :=
  repeat lazymatch goal with
  | |- preserves _ (mbind _ _) => apply preserves_bind; [|intros ?]
  | |- preserves _ (mret _) => apply preserves_ret
  | |- preserves _ (gets _) => apply preserves_gets
  | |- preserves _ (throw _) => apply preserves_throw
  | |- preserves _ (try_catch _) => apply preserves_try_catch
  | |- preserves _ (for_each _ _) => apply preserves_for_each; intros ?
  | |- preserves _ (set_conn None) => apply (steady_clear P HP)
  | |- preserves _ (update_conn _ _) => apply (steady_conn P HP)
  | |- preserves _ (inbound _ _) => apply (steady_inbound P HP)
  | |- preserves _ (listeners _ _) => apply preserves_gets
  | |- preserves _ (console_warn _) => apply quiet_preserves;
        [apply HP | apply quiet_console_warn]
  end.

Lemma steady_hook {A} (m : M State A) : quiet m -> preserves P m.
Proof. apply quiet_preserves, HP. Qed.

Lemma steady_on_conn_close u : preserves P (on_conn_close h u).
Proof. unfold on_conn_close. keep. apply steady_hook, Hq. Qed.

Lemma steady_on_current register :
  (forall c, preserves P (register c)) -> preserves P (on_current register).
Proof. intros Hr. unfold on_current. keep. destruct a as [c|]; keep. apply Hr. Qed.

Lemma steady_on_conn_open : preserves P (on_conn_open h).
Proof.
  unfold on_conn_open. keep.
  - apply steady_on_current. intros c. unfold conn_on_data_add. keep.
  - apply steady_on_current. intros c. unfold conn_on_close_add. keep.
  - apply steady_on_current. intros c. unfold conn_on_error_add. keep.
  - apply steady_hook, Hq.
Qed.

Lemma steady_conn_close c : preserves P (conn_close (on_conn_close h) c).
Proof.
  unfold conn_close. keep. destruct a as [cn|]; keep.
  destruct (close_mode (conn_behaviour cn)); keep.
  destruct (conn_open cn); keep. apply steady_on_conn_close.
Qed.

Lemma steady_closeHost : preserves P (closeHost h).
Proof.
  unfold closeHost. keep. destruct a as [c|]; keep. apply steady_conn_close.
Qed.

Lemma steady_sendHost data : preserves P (sendHost data).
Proof.
  unfold sendHost. keep. destruct (a : bool); keep.
  destruct a0 as [c|]; keep. unfold conn_send. keep.
  destruct a0 as [cn|]; keep. destruct (send_raises (conn_behaviour cn) data); keep.
Qed.

Lemma steady_calm_step st :
  player_is_ready st = false -> player_is_disconnected st = false ->
  preserves P (step h st).
Proof.
  intros Hr Hd. pose proof Hq as (Hq1 & Hq2 & Hq3 & Hq4 & Hq5 & Hq6).
  destruct st as [n| |]; simpl step.
  - destruct n; try discriminate Hr; try discriminate Hd; simpl; keep.
    + by apply steady_hook.
    + apply steady_on_conn_open.
    + by apply steady_hook.
    + apply steady_on_conn_close.
    + by apply steady_hook.
  - keep. apply steady_sendHost.
  - apply steady_closeHost.
Qed.

End Steady.

Lemma steady_peer_is p : steady (peer_is p : State -> Prop).
Proof.
  split.
  - intros w w' (_ & _ & Hp) Hw. unfold peer_is in *. congruence.
  - by intros c f w Hw.
  - by intros md b w Hw.
  - by intros w Hw.
Qed.

Lemma steady_names room playerId : steady (player_names room playerId).
Proof.
  split.
  - intros w w' (Ht & _ & _) Hw. unfold player_names in *. by rewrite Ht.
  - by intros c f w Hw.
  - by intros md b w Hw.
  - by intros w Hw.
Qed.

Lemma steady_kept c : steady (fun w => kept_or_cleared c (slot w)).
Proof.
  split.
  - intros w w' (Ht & _ & _) Hw. unfold slot in *. by rewrite Ht.
  - by intros c0 f w Hw.
  - by intros md b w Hw.
  - intros w Hw. by right.
Qed.

Lemma player_step_names h st room playerId :
  quiet_hooks h -> preserves (player_names room playerId) (step h st).
Proof.
  intros Hq.
  destruct (player_is_ready st) eqn:Hr.
  { destruct st as [[]| |]; try discriminate Hr. intros w Hw.
    change (step h (Notify (PeerOpen myId))) with (notify h (PeerOpen myId)).
    unfold exec. rewrite player_PeerOpen_run.
    apply (quiet_preserves _ (handlePeerReady h myId)
             (steady_model _ (steady_names room playerId))); [apply Hq|].
    by destruct (not_connected w). }
  destruct (player_is_disconnected st) eqn:Hd.
  { destruct st as [[]| |]; try discriminate Hd. by intros w Hw. }
  by apply steady_calm_step; [|apply steady_names| |].
Qed.

Lemma player_step_peer h st w :
  quiet_hooks h ->
  peer (exec (step h st) w) =
  dialled (dials st w)
    (reconnected (if player_is_disconnected st then 1 else 0) (peer w)).
Proof.
  intros Hq.
  assert (Hsame : forall p, dialled [] (reconnected 0 p) = p).
  { intros [i r c d]. unfold dialled, reconnected. simpl. by rewrite app_nil_r. }
  destruct (player_is_ready st) eqn:Hr.
  { destruct st as [[]| |]; try discriminate Hr.
    change (step h (Notify (PeerOpen myId))) with (notify h (PeerOpen myId)).
    unfold exec. rewrite player_PeerOpen_run.
    destruct Hq as (Hq1 & _).
    destruct (Hq1 myId (if not_connected w then player_dialled w else w))
      as (_ & _ & Hp).
    unfold exec in Hp. rewrite Hp. simpl.
    destruct (not_connected w); [|by rewrite Hsame].
    unfold player_dialled, dialled, reconnected. by destruct (peer w). }
  destruct (player_is_disconnected st) eqn:Hd.
  { destruct st as [[]| |]; try discriminate Hd. simpl.
    unfold dialled, reconnected. simpl. by rewrite app_nil_r. }
  assert (Hdials : dials st w = []).
  { by destruct st as [[]| |]. }
  rewrite Hdials, Hsame.
  by apply (steady_calm_step h Hq _ (steady_peer_is (peer w)) st Hr Hd).
Qed.

(** X17: over any run of notifications and calls the player keeps its
    room code, its identity and the address it registered under; it calls
    [reconnect()] exactly once for every signaling disconnection; and
    every connect attempt it makes is the same one, to the host's address
    with the player's identity, at most one for every signaling-ready
    notification (hooks that touch only the console). *)
Theorem player_over_runs h sts w :
  quiet_hooks h ->
  let w' := run h sts w in
  player_names (hostId (this w)) (_playerId (this w)) w' /\
  peer_id (peer w') = peer_id (peer w) /\
  peer_reconnect_calls (peer w') =
    count player_is_disconnected sts + peer_reconnect_calls (peer w) /\
  exists n, n <= count player_is_ready sts /\
    connect_calls w' = connect_calls w ++ replicate n (attempt w).
Proof.
  intros Hq. revert w. induction sts as [|st sts IH]; intros w.
  - simpl. split; [done|]. split; [done|]. split; [done|].
    exists 0. split; [lia|]. simpl. by rewrite app_nil_r.
  - cbv zeta. rewrite player_run_cons.
    set (w1 := exec (step h st) w).
    assert (Hnames : player_names (hostId (this w)) (_playerId (this w)) w1).
    { by apply player_step_names. }
    destruct Hnames as [Hroom Hid].
    assert (Hatt : attempt w1 = attempt w).
    { unfold attempt. by rewrite Hroom, Hid. }
    pose proof (player_step_peer h st w Hq) as Hpeer. fold w1 in Hpeer.
    destruct (IH w1) as (Hn & Hi & Hr & n & Hle & Hcalls).
    rewrite Hroom, Hid in Hn. rewrite Hatt in Hcalls.
    split; [exact Hn|]. split; [by rewrite Hi, Hpeer|]. split.
    + rewrite Hr, Hpeer. cbn [count]. simpl.
      destruct (player_is_disconnected st); lia.
    + unfold connect_calls in *. rewrite Hcalls, Hpeer. simpl. cbn [count].
      destruct st as [[]| |]; simpl;
        try (exists n; split; [lia | by rewrite app_nil_r]).
      destruct (not_connected w).
      * exists (S n). split; [lia|]. by rewrite <- app_assoc.
      * exists n. split; [lia|]. by rewrite app_nil_r.
Qed.

(** X17, on a run: the player joins, signaling drops and becomes ready
    again while the connection is open, the player hangs up, and signaling
    becomes ready a third time. *)
Lemma player_over_runs_witness :
  let w' := run base_hooks
    (Scenarios.joining 0 ++
     [Notify PeerDisconnected;
      Notify (PeerOpen "JillBagPlayerADHLOSWADH");
      CallCloseHost;
      Notify (PeerOpen "JillBagPlayerADHLOSWADH")]) Scenarios.fresh_player in
  _playerId (this w') = "ADHLOSWADH" /\
  peer_reconnect_calls (peer w') = 1 /\
  connect_calls w' =
    [("JillBagHostADHLOS", mkOptions {[ "id" := "ADHLOSWADH" ]} "json");
     ("JillBagHostADHLOS", mkOptions {[ "id" := "ADHLOSWADH" ]} "json")].
Proof.
  destruct (player_over_runs base_hooks
    (Scenarios.joining 0 ++
     [Notify PeerDisconnected;
      Notify (PeerOpen "JillBagPlayerADHLOSWADH");
      CallCloseHost;
      Notify (PeerOpen "JillBagPlayerADHLOSWADH")]) Scenarios.fresh_player
    player_base_hooks_quiet) as ([_ Hid] & _ & Hr & _).
  cbv zeta. split; [|split].
  - rewrite Hid. vm_compute. reflexivity.
  - rewrite Hr. reflexivity.
  - vm_compute. reflexivity.
Defined.

(** X18: only the signaling-ready notification puts a connection in
    [_conn]: after any other notification and after any call, [_conn]
    holds what it held or [null] (hooks that touch only the console). *)
Theorem slot_filled_only_by_ready h st w :
  quiet_hooks h -> player_is_ready st = false ->
  kept_or_cleared (slot w) (slot (exec (step h st) w)).
Proof.
  intros Hq Hr.
  destruct (player_is_disconnected st) eqn:Hd.
  { destruct st as [[]| |]; try discriminate Hd. by left. }
  apply (steady_calm_step h Hq _ (steady_kept (slot w)) st Hr Hd). by left.
Qed.

(** X18, on worlds: the close notification of the connection of a player
    that has joined clears [_conn], and a data notification keeps it. *)
Lemma slot_filled_only_by_ready_witness :
  kept_or_cleared (Some 0)
    (slot (exec (step base_hooks (Notify (ConnClose 0))) Scenarios.joined)) /\
  kept_or_cleared (Some 0)
    (slot (exec (step base_hooks (Notify (ConnData 0 (PString "hi"))))
             Scenarios.joined)).
Proof.
  split.
  - apply (slot_filled_only_by_ready base_hooks (Notify (ConnClose 0))
      Scenarios.joined player_base_hooks_quiet). reflexivity.
  - apply (slot_filled_only_by_ready base_hooks
      (Notify (ConnData 0 (PString "hi"))) Scenarios.joined
      player_base_hooks_quiet). reflexivity.
Defined.

End PlayerMore.
